(** * Per-prefix statistics of memcached (stats.c)

    A shallow embedding of the prefix statistics registry of [stats.c]:
    the [PREFIX_STATS] accumulators, the fixed table of hash chains, the
    [stats_prefix_record_*] entry points, [stats_prefix_clear] and
    [stats_prefix_dump], followed by the properties proved about them.

    Conventions.  C integers are values of [Z]; every C operation on a
    fixed-width type is followed by the wrap-around of that type.  A key
    [(key, nkey)] is the list of its [nkey] bytes.  A chain of
    [PREFIX_STATS] linked through [next] is the list of its nodes, head
    first.  The global lock macros have no effect on a sequential run and
    are left out. *)

From Stdlib Require Import ZArith Lia Ascii String.
From stdpp Require Import base functions list strings.

Local Open Scope Z_scope.

(** ** Machine integers *)

Module MachineInt.

Definition wrap (bits x : Z) : Z := x mod 2 ^ bits.

(** [uint64_t], [size_t], [unsigned long long] *)
Definition u64 (x : Z) : Z := wrap 64 x.
(** [uint32_t], [unsigned] *)
Definition u32 (x : Z) : Z := wrap 32 x.
(** [int]: two's complement on 32 bits.  Signed overflow is undefined
    in C; the model follows the wrap-around every supported target
    performs. *)
Definition int (x : Z) : Z := (x + 2 ^ 31) mod 2 ^ 32 - 2 ^ 31.

Definition INT_MAX : Z := 2 ^ 31 - 1.

End MachineInt.
Import MachineInt.

(** ** What stats.c takes from the other translation units

    [hash] (assoc.h), [settings.prefix_delimiter], the flag masks and
    the [printf] length modifier are not defined in stats.c; the
    development is parametric in them. *)

Class Externals := {
  (** [hash(key, length, initval)]: a 32-bit hash of the [length] bytes at
      [key]. *)
  hash : list ascii -> Z -> Z;
  (** [settings.prefix_delimiter] *)
  prefix_delimiter : ascii;
  PREFIX_INCR_ITEM_COUNT : Z;
  PREFIX_IS_OVERWRITE : Z;
  UNLINK_IS_EVICT : Z;
  UNLINK_IS_EXPIRED : Z;
  (** the characters between [%] and [u] in a 64-bit conversion *)
  PRINTF_INT64_MODIFIER : string
}.

(** [rel_time_t] is declared in memcached.h as [unsigned int]. *)
Definition rel_time (x : Z) : Z := u32 x.

(** ** The accumulator *)

Record PREFIX_STATS := mkPREFIX_STATS {
  prefix : list ascii;
  prefix_len : Z;
  num_items : Z;
  last_update : Z;
  num_gets : Z;
  num_hits : Z;
  num_sets : Z;
  num_deletes : Z;
  num_evicts : Z;
  num_overwrites : Z;
  num_expires : Z;
  num_bytes : Z;
  bytes_txed : Z;
  total_byte_seconds : Z
}.

(** A zeroed structure, as [pool_calloc] and [memset (.., 0, ..)] leave
    it. *)
Definition zeroed : PREFIX_STATS :=
  mkPREFIX_STATS [] 0 0 0 0 0 0 0 0 0 0 0 0 0.

(** Assignments to a single member. *)
Module Field.

Definition set_prefix v (a : PREFIX_STATS) :=
  mkPREFIX_STATS v (prefix_len a) (num_items a) (last_update a)
    (num_gets a) (num_hits a) (num_sets a) (num_deletes a) (num_evicts a)
    (num_overwrites a) (num_expires a) (num_bytes a) (bytes_txed a)
    (total_byte_seconds a).

Definition set_prefix_len v (a : PREFIX_STATS) :=
  mkPREFIX_STATS (prefix a) v (num_items a) (last_update a)
    (num_gets a) (num_hits a) (num_sets a) (num_deletes a) (num_evicts a)
    (num_overwrites a) (num_expires a) (num_bytes a) (bytes_txed a)
    (total_byte_seconds a).

Definition set_num_items v (a : PREFIX_STATS) :=
  mkPREFIX_STATS (prefix a) (prefix_len a) v (last_update a)
    (num_gets a) (num_hits a) (num_sets a) (num_deletes a) (num_evicts a)
    (num_overwrites a) (num_expires a) (num_bytes a) (bytes_txed a)
    (total_byte_seconds a).

Definition set_last_update v (a : PREFIX_STATS) :=
  mkPREFIX_STATS (prefix a) (prefix_len a) (num_items a) v
    (num_gets a) (num_hits a) (num_sets a) (num_deletes a) (num_evicts a)
    (num_overwrites a) (num_expires a) (num_bytes a) (bytes_txed a)
    (total_byte_seconds a).

Definition set_num_gets v (a : PREFIX_STATS) :=
  mkPREFIX_STATS (prefix a) (prefix_len a) (num_items a) (last_update a)
    v (num_hits a) (num_sets a) (num_deletes a) (num_evicts a)
    (num_overwrites a) (num_expires a) (num_bytes a) (bytes_txed a)
    (total_byte_seconds a).

Definition set_num_hits v (a : PREFIX_STATS) :=
  mkPREFIX_STATS (prefix a) (prefix_len a) (num_items a) (last_update a)
    (num_gets a) v (num_sets a) (num_deletes a) (num_evicts a)
    (num_overwrites a) (num_expires a) (num_bytes a) (bytes_txed a)
    (total_byte_seconds a).

Definition set_num_sets v (a : PREFIX_STATS) :=
  mkPREFIX_STATS (prefix a) (prefix_len a) (num_items a) (last_update a)
    (num_gets a) (num_hits a) v (num_deletes a) (num_evicts a)
    (num_overwrites a) (num_expires a) (num_bytes a) (bytes_txed a)
    (total_byte_seconds a).

Definition set_num_deletes v (a : PREFIX_STATS) :=
  mkPREFIX_STATS (prefix a) (prefix_len a) (num_items a) (last_update a)
    (num_gets a) (num_hits a) (num_sets a) v (num_evicts a)
    (num_overwrites a) (num_expires a) (num_bytes a) (bytes_txed a)
    (total_byte_seconds a).

Definition set_num_evicts v (a : PREFIX_STATS) :=
  mkPREFIX_STATS (prefix a) (prefix_len a) (num_items a) (last_update a)
    (num_gets a) (num_hits a) (num_sets a) (num_deletes a) v
    (num_overwrites a) (num_expires a) (num_bytes a) (bytes_txed a)
    (total_byte_seconds a).

Definition set_num_overwrites v (a : PREFIX_STATS) :=
  mkPREFIX_STATS (prefix a) (prefix_len a) (num_items a) (last_update a)
    (num_gets a) (num_hits a) (num_sets a) (num_deletes a) (num_evicts a)
    v (num_expires a) (num_bytes a) (bytes_txed a)
    (total_byte_seconds a).

Definition set_num_expires v (a : PREFIX_STATS) :=
  mkPREFIX_STATS (prefix a) (prefix_len a) (num_items a) (last_update a)
    (num_gets a) (num_hits a) (num_sets a) (num_deletes a) (num_evicts a)
    (num_overwrites a) v (num_bytes a) (bytes_txed a)
    (total_byte_seconds a).

Definition set_num_bytes v (a : PREFIX_STATS) :=
  mkPREFIX_STATS (prefix a) (prefix_len a) (num_items a) (last_update a)
    (num_gets a) (num_hits a) (num_sets a) (num_deletes a) (num_evicts a)
    (num_overwrites a) (num_expires a) v (bytes_txed a)
    (total_byte_seconds a).

Definition set_bytes_txed v (a : PREFIX_STATS) :=
  mkPREFIX_STATS (prefix a) (prefix_len a) (num_items a) (last_update a)
    (num_gets a) (num_hits a) (num_sets a) (num_deletes a) (num_evicts a)
    (num_overwrites a) (num_expires a) (num_bytes a) v
    (total_byte_seconds a).

Definition set_total_byte_seconds v (a : PREFIX_STATS) :=
  mkPREFIX_STATS (prefix a) (prefix_len a) (num_items a) (last_update a)
    (num_gets a) (num_hits a) (num_sets a) (num_deletes a) (num_evicts a)
    (num_overwrites a) (num_expires a) (num_bytes a) (bytes_txed a) v.

End Field.
Import Field.

(** ** The registry: the file-scope variables of stats.c *)

Definition PREFIX_HASH_SIZE : Z := 256.

Record registry := mkRegistry {
  (** [static PREFIX_STATS *prefix_stats[PREFIX_HASH_SIZE]]: the chain at
      each index; only the indices below [PREFIX_HASH_SIZE] are ever
      read or written. *)
  prefix_stats : nat -> list PREFIX_STATS;
  (** [static int num_prefixes] *)
  num_prefixes : Z;
  (** [static int total_prefix_size] *)
  total_prefix_size : Z;
  (** [static PREFIX_STATS wildcard] *)
  wildcard : PREFIX_STATS
}.

(** The chain hanging off [prefix_stats[i]]; [NULL] is the empty chain. *)
Definition bucket (r : registry) (i : nat) : list PREFIX_STATS :=
  prefix_stats r i.

(** A [PREFIX_STATS *] that the entry points hold: the address of
    [wildcard], or a node of the chain of bucket [hashval].  A node is
    named by the number of nodes behind it in its chain, which no
    insertion at the head changes. *)
Inductive pfs_ptr :=
| Wildcard
| Chained (hashval : nat) (rank : nat).

Fixpoint chain_get (pfs : list PREFIX_STATS) (rank : nat) : option PREFIX_STATS :=
  match pfs with
  | [] => None
  | p :: next =>
      if decide (rank = length next) then Some p else chain_get next rank
  end.

Fixpoint chain_set (f : PREFIX_STATS -> PREFIX_STATS) (rank : nat)
    (pfs : list PREFIX_STATS) : list PREFIX_STATS :=
  match pfs with
  | [] => []
  | p :: next =>
      if decide (rank = length next) then f p :: next
      else p :: chain_set f rank next
  end.

(** Reading through a pointer. *)
Definition deref (r : registry) (p : pfs_ptr) : option PREFIX_STATS :=
  match p with
  | Wildcard => Some (wildcard r)
  | Chained h k => chain_get (bucket r h) k
  end.

(** Updating the structure a pointer designates. *)
Definition store (p : pfs_ptr) (f : PREFIX_STATS -> PREFIX_STATS)
    (r : registry) : registry :=
  match p with
  | Wildcard =>
      mkRegistry (prefix_stats r) (num_prefixes r) (total_prefix_size r)
        (f (wildcard r))
  | Chained h k =>
      mkRegistry (<[h := chain_set f k (bucket r h)]> (prefix_stats r))
        (num_prefixes r) (total_prefix_size r) (wildcard r)
  end.

(** [stats_prefix_init]: both [memset]s, and the static initialisers. *)
Definition stats_prefix_init : registry :=
  mkRegistry (fun _ => []) 0 0 zeroed.

(** [stats_prefix_clear]: every chain is freed and its slot set to
    [NULL], the two counters are reset and [wildcard] is zeroed. *)
Definition stats_prefix_clear (r : registry) : registry :=
  mkRegistry
    (foldl (fun ps i => <[i := []]> ps) (prefix_stats r)
       (seq 0 (Z.to_nat PREFIX_HASH_SIZE)))
    0 0 zeroed.

(** ** stats_prefix_find *)

(** What the pool allocator answers when [stats_prefix_find] reaches its
    two allocations. *)
Inductive pool_outcome :=
| pool_ok
| pool_calloc_null
| pool_malloc_null.

Section Stats.
Context `{Externals}.

(** [for (length = 0; length < nkey; length++)
       if (key[length] == settings.prefix_delimiter) break;] *)
Fixpoint delimiter_scan (key : list ascii) : nat :=
  match key with
  | [] => O
  | c :: rest =>
      if decide (c = prefix_delimiter) then O else S (delimiter_scan rest)
  end.

(** [memcmp(a, b, n) == 0] *)
Definition memcmp_eq (a b : list ascii) (n : nat) : bool :=
  bool_decide (take n a = take n b).

(** The scan of one chain for the candidate prefix [key[0..length)]. *)
Fixpoint chain_find (key : list ascii) (length : nat)
    (pfs : list PREFIX_STATS) : option nat :=
  match pfs with
  | [] => None
  | p :: next =>
      if (Z.of_nat length =? prefix_len p) && memcmp_eq (prefix p) key length
      then Some (List.length next)
      else chain_find key length next
  end.

Definition stats_prefix_find (key : list ascii) (pool : pool_outcome)
    (r : registry) : option pfs_ptr * registry :=
  let nkey := List.length key in
  let length := delimiter_scan key in
  if decide (length = nkey) then (Some Wildcard, r)
  else
    let hashval := Z.to_nat (u32 (hash (take length key) 0) mod PREFIX_HASH_SIZE) in
    match chain_find key length (bucket r hashval) with
    | Some rank => (Some (Chained hashval rank), r)
    | None =>
        match pool with
        | pool_calloc_null => (None, r)
        | pool_malloc_null => (None, r)
        | pool_ok =>
            let pfs :=
              set_prefix_len (Z.of_nat length)
                (set_prefix (take length key) zeroed) in
            (Some (Chained hashval (List.length (bucket r hashval))),
             mkRegistry
               (<[hashval := pfs :: bucket r hashval]> (prefix_stats r))
               (int (num_prefixes r + 1))
               (int (total_prefix_size r + Z.of_nat length))
               (wildcard r))
        end
    end.

(** ** The record entry points

    Each takes the key, the event's data, the value of [current_time]
    where the function reads it, and the answer of the pool allocator
    should [stats_prefix_find] have to allocate. *)

Definition stats_prefix_record_get (key : list ascii) (nbytes : Z)
    (is_hit : bool) (pool : pool_outcome) (r : registry) : registry :=
  match stats_prefix_find key pool r with
  | (Some pfs, r1) =>
      store pfs
        (fun a =>
           let a := set_num_gets (u64 (num_gets a + 1)) a in
           if is_hit then
             let a := set_num_hits (u64 (num_hits a + 1)) a in
             set_bytes_txed (u64 (bytes_txed a + nbytes)) a
           else a)
        r1
  | (None, r1) => r1
  end.

Definition stats_prefix_record_delete (key : list ascii)
    (pool : pool_outcome) (r : registry) : registry :=
  match stats_prefix_find key pool r with
  | (Some pfs, r1) =>
      store pfs (fun a => set_num_deletes (u64 (num_deletes a + 1)) a) r1
  | (None, r1) => r1
  end.

Definition stats_prefix_record_set (key : list ascii)
    (pool : pool_outcome) (r : registry) : registry :=
  match stats_prefix_find key pool r with
  | (Some pfs, r1) =>
      store pfs (fun a => set_num_sets (u64 (num_sets a + 1)) a) r1
  | (None, r1) => r1
  end.

Definition stats_prefix_record_byte_total_change (key : list ascii)
    (bytes : Z) (prefix_stats_flags : Z) (current_time : Z)
    (pool : pool_outcome) (r : registry) : registry :=
  match stats_prefix_find key pool r with
  | (Some pfs, r1) =>
      store pfs
        (fun a =>
           let now := current_time in
           let a :=
             if decide (now <> last_update a) then
               let a :=
                 set_total_byte_seconds
                   (u64 (total_byte_seconds a
                         + u64 (num_bytes a * rel_time (now - last_update a))))
                   a in
               set_last_update now a
             else a in
           let a := set_num_bytes (u64 (num_bytes a + bytes)) a in
           let a :=
             if decide (Z.land prefix_stats_flags PREFIX_INCR_ITEM_COUNT <> 0)
             then set_num_items (u32 (num_items a + 1)) a
             else a in
           if decide (Z.land prefix_stats_flags PREFIX_IS_OVERWRITE <> 0)
           then set_num_overwrites (u64 (num_overwrites a + 1)) a
           else a)
        r1
  | (None, r1) => r1
  end.

(** The parameter [time] of the C function is not used by its body. *)
Definition stats_prefix_record_removal (key : list ascii) (bytes : Z)
    (time : Z) (flags : Z) (current_time : Z) (pool : pool_outcome)
    (r : registry) : registry :=
  match stats_prefix_find key pool r with
  | (Some pfs, r1) =>
      store pfs
        (fun a =>
           let now := current_time in
           let a :=
             if decide (Z.land flags UNLINK_IS_EVICT <> 0)
             then set_num_evicts (u64 (num_evicts a + 1)) a
             else if decide (Z.land flags UNLINK_IS_EXPIRED <> 0)
             then set_num_expires (u64 (num_expires a + 1)) a
             else a in
           let a :=
             if decide (now <> last_update a) then
               let a :=
                 set_total_byte_seconds
                   (u64 (total_byte_seconds a
                         + u64 (num_bytes a * rel_time (now - last_update a))))
                   a in
               set_last_update now a
             else a in
           let a := set_num_bytes (u64 (num_bytes a - bytes)) a in
           set_num_items (u32 (num_items a - 1)) a)
        r1
  | (None, r1) => r1
  end.

(** ** Formatted output

    The part of [printf] that the dump format uses.  A format is kept as
    the sequence of its ordinary text and conversions. *)

Inductive conversion :=
| Text (s : string)       (* ordinary characters *)
| Conv_precision_s        (* %.*s *)
| Conv_u                  (* %u *)
| Conv_u64.               (* % PRINTF_INT64_MODIFIER u *)

Inductive vararg :=
| va_int (v : Z)
| va_str (s : list ascii).

Definition NUL : ascii := "000"%char.
Definition CR : ascii := "013"%char.
Definition LF : ascii := "010"%char.
Definition CRLF : string := String CR (String LF EmptyString).

(** [strlen] of a conversion as it is spelled in the format string. *)
Definition conversion_strlen (c : conversion) : Z :=
  match c with
  | Text s => Z.of_nat (String.length s)
  | Conv_precision_s => 4
  | Conv_u => 2
  | Conv_u64 => 2 + Z.of_nat (String.length PRINTF_INT64_MODIFIER)
  end.

Definition format_strlen (fmt : list conversion) : Z :=
  foldr (fun c n => conversion_strlen c + n) 0 fmt.

Definition digit (d : Z) : ascii := ascii_of_nat (48 + Z.to_nat d).

(** Decimal digits of a non-negative number, most significant first. *)
Fixpoint utoa_loop (fuel : nat) (n : Z) (acc : list ascii) : list ascii :=
  match fuel with
  | O => acc
  | S fuel' =>
      let acc' := digit (n mod 10) :: acc in
      if n / 10 =? 0 then acc' else utoa_loop fuel' (n / 10) acc'
  end.

Definition utoa (n : Z) : list ascii :=
  utoa_loop (S (Z.to_nat (Z.log2 n))) n [].

(** A string argument under a precision: the characters before the first
    NUL, and no more than the precision when it is not negative. *)
Fixpoint c_string (s : list ascii) : list ascii :=
  match s with
  | [] => []
  | c :: rest => if decide (c = NUL) then [] else c :: c_string rest
  end.

Definition precision_string (precision : Z) (s : list ascii) : list ascii :=
  if precision <? 0 then c_string s
  else take (Z.to_nat precision) (c_string s).

Fixpoint vformat (fmt : list conversion) (ap : list vararg) : list ascii :=
  match fmt with
  | [] => []
  | Text s :: fmt' => list_ascii_of_string s ++ vformat fmt' ap
  | Conv_precision_s :: fmt' =>
      match ap with
      | va_int precision :: va_str s :: ap' =>
          precision_string (int precision) s ++ vformat fmt' ap'
      | _ => []
      end
  | Conv_u :: fmt' =>
      match ap with
      | va_int v :: ap' => utoa v ++ vformat fmt' ap'
      | _ => []
      end
  | Conv_u64 :: fmt' =>
      match ap with
      | va_int v :: ap' => utoa v ++ vformat fmt' ap'
      | _ => []
      end
  end.

(** Modelled from the spec: [append_to_buffer (buf, size, offset,
    reserved, fmt, ...)] is defined outside stats.c.  It formats at
    [buf + offset] and returns the offset behind what it stored; the text
    is cut rather than written past the buffer, and room is kept for
    [reserved] further bytes and the closing NUL.  The buffer is carried
    as the bytes stored so far. *)
Definition append_to_buffer (buf : list ascii) (size offset reserved : Z)
    (fmt : list conversion) (ap : list vararg) : list ascii * Z :=
  let room := size - offset - reserved - 1 in
  let stored := take (Z.to_nat room) (vformat fmt ap) in
  (take (Z.to_nat offset) buf ++ stored, offset + Z.of_nat (List.length stored)).

(** ** stats_prefix_dump *)

Definition STATS_PREFIX_DUMP_FORMAT : list conversion :=
  [ Text "PREFIX "; Conv_precision_s;
    Text " item "; Conv_u;
    Text " get "; Conv_u64;
    Text " hit "; Conv_u64;
    Text " set "; Conv_u64;
    Text " del "; Conv_u64;
    Text " evict "; Conv_u64;
    Text " ov "; Conv_u64;
    Text " exp "; Conv_u64;
    Text " bytes "; Conv_u64;
    Text " txed "; Conv_u64;
    Text " byte-seconds "; Conv_u64;
    Text CRLF ].

Definition terminator : string := "END" +:+ CRLF.
Definition wildcard_name : string := "*wildcard*".

(** [sizeof] of a character array initialised from a string literal. *)
Definition sizeof_string (s : string) : Z := Z.of_nat (String.length s) + 1.

(** [format_len]: the size of the 64-bit conversion literal less the size
    of the empty literal. *)
Definition format_len : Z :=
  int (sizeof_string ("%" +:+ PRINTF_INT64_MODIFIER +:+ "u")
       - sizeof_string "").

(** The [size] handed to [malloc]. *)
Definition dump_size (r : registry) : Z :=
  u64
    (u64
       (u64
          (total_prefix_size r
           + u64 (int (num_prefixes r + 1)
                  * u64 (format_strlen STATS_PREFIX_DUMP_FORMAT
                         + int (11 * int (20 - format_len)))))
        + sizeof_string wildcard_name)
     + sizeof_string terminator).

(** The variadic arguments of one line. *)
Definition dump_args (name_len : Z) (name : list ascii) (a : PREFIX_STATS)
    : list vararg :=
  [ va_int name_len; va_str name; va_int (num_items a);
    va_int (num_gets a); va_int (num_hits a); va_int (num_sets a);
    va_int (num_deletes a); va_int (num_evicts a);
    va_int (num_overwrites a); va_int (num_expires a);
    va_int (num_bytes a); va_int (bytes_txed a);
    va_int (total_byte_seconds a) ].

(** The two statements the dump runs on every structure before printing
    it, the wildcard included:
    [total_byte_seconds += num_bytes * (now - last_update);
     last_update = now;] *)
Definition dump_flush (now : Z) (a : PREFIX_STATS) : PREFIX_STATS :=
  let a :=
    set_total_byte_seconds
      (u64 (total_byte_seconds a
            + u64 (num_bytes a * rel_time (now - last_update a))))
      a in
  set_last_update now a.

(** The inner loop: one chain. *)
Fixpoint dump_chain (now size : Z) (pfs : list PREFIX_STATS)
    (out : list ascii * Z) : list PREFIX_STATS * (list ascii * Z) :=
  match pfs with
  | [] => ([], out)
  | p :: next =>
      let p := dump_flush now p in
      let out :=
        append_to_buffer (fst out) size (snd out) (sizeof_string terminator)
          STATS_PREFIX_DUMP_FORMAT
          (dump_args (u32 (prefix_len p)) (prefix p) p) in
      let '(next', out) := dump_chain now size next out in
      (p :: next', out)
  end.

(** The outer loop: [for (i = 0; i < PREFIX_HASH_SIZE; i++)]. *)
Definition dump_table (now size : Z) (table : nat -> list PREFIX_STATS)
    (out : list ascii * Z) : (nat -> list PREFIX_STATS) * (list ascii * Z) :=
  foldl
    (fun st i =>
       let '(pfs, out') := dump_chain now size (fst st i) (snd st) in
       (<[i := pfs]> (fst st), out'))
    (table, out)
    (seq 0 (Z.to_nat PREFIX_HASH_SIZE)).

(** [malloc_ok] tells whether [malloc (size)] returns a buffer.  The
    result is the buffer with [*length], and the registry the call
    leaves. *)
Definition stats_prefix_dump (current_time : Z) (malloc_ok : bool)
    (r : registry) : option (list ascii * Z) * registry :=
  let now := current_time in
  let size := dump_size r in
  if negb malloc_ok then (None, r)
  else
    let '(table, out) := dump_table now size (prefix_stats r) ([], 0) in
    let w := dump_flush now (wildcard r) in
    let out :=
      if decide (num_gets w <> 0 \/ num_sets w <> 0 \/ num_deletes w <> 0)
      then
        append_to_buffer (fst out) size (snd out) (sizeof_string terminator)
          STATS_PREFIX_DUMP_FORMAT
          (dump_args (u32 (sizeof_string wildcard_name - 1))
             (list_ascii_of_string wildcard_name) w)
      else out in
    let out := append_to_buffer (fst out) size (snd out) 0 [Text terminator] [] in
    (Some (fst out, int (snd out)),
     mkRegistry table (num_prefixes r) (total_prefix_size r) w).

(** ** Notions used to state the properties *)

(** The bytes of a key before its first delimiter. *)
Definition key_prefix (key : list ascii) : list ascii :=
  take (delimiter_scan key) key.

(** The bucket of a key with a delimiter. *)
Definition key_hashval (key : list ascii) : nat :=
  Z.to_nat (u32 (hash (key_prefix key) 0) mod PREFIX_HASH_SIZE).

(** The node [stats_prefix_find] links in for a prefix it did not find. *)
Definition new_node (key : list ascii) : PREFIX_STATS :=
  set_prefix_len (Z.of_nat (delimiter_scan key))
    (set_prefix (key_prefix key) zeroed).

(** Every node of the table, in the order the dump walks it. *)
Definition chained (r : registry) : list PREFIX_STATS :=
  flat_map (prefix_stats r) (seq 0 (Z.to_nat PREFIX_HASH_SIZE)).

Definition prefix_bytes (pfs : list PREFIX_STATS) : Z :=
  foldr (fun a n => prefix_len a + n) 0 pfs.

(** The two counters agree with the table. *)
Definition counters_agree (r : registry) : Prop :=
  num_prefixes r = Z.of_nat (List.length (chained r))
  /\ total_prefix_size r = prefix_bytes (chained r).

(** The table still fits the two [int] counters. *)
Definition within_int (r : registry) : Prop :=
  Z.of_nat (List.length (chained r)) <= INT_MAX
  /\ - 2 ^ 31 <= prefix_bytes (chained r) <= INT_MAX.

(** The call of [append_to_buffer] in the inner loop of the dump. *)
Definition append_line (size : Z) (out : list ascii * Z) (a : PREFIX_STATS)
    : list ascii * Z :=
  append_to_buffer (fst out) size (snd out) (sizeof_string terminator)
    STATS_PREFIX_DUMP_FORMAT
    (dump_args (u32 (prefix_len a)) (prefix a) a).

(** A pointer into the table proper. *)
Definition in_table (p : pfs_ptr) : Prop :=
  match p with
  | Wildcard => True
  | Chained hashval _ => (hashval < Z.to_nat PREFIX_HASH_SIZE)%nat
  end.

(** The members hold values of their C types, and [prefix_len] is the
    length of the stored copy of the prefix. *)
Definition well_typed (a : PREFIX_STATS) : Prop :=
  prefix_len a = Z.of_nat (List.length (prefix a))
  /\ 0 <= num_items a < 2 ^ 32
  /\ 0 <= num_gets a < 2 ^ 64
  /\ 0 <= num_hits a < 2 ^ 64
  /\ 0 <= num_sets a < 2 ^ 64
  /\ 0 <= num_deletes a < 2 ^ 64
  /\ 0 <= num_evicts a < 2 ^ 64
  /\ 0 <= num_overwrites a < 2 ^ 64
  /\ 0 <= num_expires a < 2 ^ 64
  /\ 0 <= num_bytes a < 2 ^ 64
  /\ 0 <= bytes_txed a < 2 ^ 64
  /\ 0 <= total_byte_seconds a < 2 ^ 64.

(** The public operations, with their arguments and what the environment
    answers during the call. *)
Inductive call :=
| call_record_get (key : list ascii) (nbytes : Z) (is_hit : bool)
    (pool : pool_outcome)
| call_record_delete (key : list ascii) (pool : pool_outcome)
| call_record_set (key : list ascii) (pool : pool_outcome)
| call_record_byte_total_change (key : list ascii) (bytes flags : Z)
    (current_time : Z) (pool : pool_outcome)
| call_record_removal (key : list ascii) (bytes time flags : Z)
    (current_time : Z) (pool : pool_outcome)
| call_dump (current_time : Z) (malloc_ok : bool)
| call_clear.

Definition run (c : call) (r : registry) : registry :=
  match c with
  | call_record_get key nbytes is_hit pool =>
      stats_prefix_record_get key nbytes is_hit pool r
  | call_record_delete key pool => stats_prefix_record_delete key pool r
  | call_record_set key pool => stats_prefix_record_set key pool r
  | call_record_byte_total_change key bytes flags now pool =>
      stats_prefix_record_byte_total_change key bytes flags now pool r
  | call_record_removal key bytes time flags now pool =>
      stats_prefix_record_removal key bytes time flags now pool r
  | call_dump now malloc_ok => snd (stats_prefix_dump now malloc_ok r)
  | call_clear => stats_prefix_clear r
  end.

(** The key a record call is about, and the answer of the pool it is
    run with. *)
Definition call_key (c : call) : option (list ascii * pool_outcome) :=
  match c with
  | call_record_get key _ _ pool => Some (key, pool)
  | call_record_delete key pool => Some (key, pool)
  | call_record_set key pool => Some (key, pool)
  | call_record_byte_total_change key _ _ _ pool => Some (key, pool)
  | call_record_removal key _ _ _ _ pool => Some (key, pool)
  | call_dump _ _ => None
  | call_clear => None
  end.

(** The registry states between public operations. *)
Inductive reachable : registry -> Prop :=
| reachable_init : reachable stats_prefix_init
| reachable_run c r : reachable r -> reachable (run c r).

(** The two ways a call can leave the size of the table and the
    counters: as they were, or with one node more, of [n] prefix bytes,
    and both counters advanced for it. *)
Definition same_size (r r' : registry) : Prop :=
  List.length (chained r') = List.length (chained r)
  /\ prefix_bytes (chained r') = prefix_bytes (chained r)
  /\ num_prefixes r' = num_prefixes r
  /\ total_prefix_size r' = total_prefix_size r.

Definition one_node_more (n : nat) (r r' : registry) : Prop :=
  List.length (chained r') = S (List.length (chained r))
  /\ prefix_bytes (chained r') = prefix_bytes (chained r) + Z.of_nat n
  /\ num_prefixes r' = int (num_prefixes r + 1)
  /\ total_prefix_size r' = int (total_prefix_size r + Z.of_nat n).

(** What holds of every registry between public operations: the
    structures are well typed, and the counters agree with the table for
    as long as the table fits them. *)
Definition registry_ok (r : registry) : Prop :=
  Forall well_typed (chained r)
  /\ well_typed (wildcard r)
  /\ (within_int r -> counters_agree r).

(** The flush in the words of the design: when the clock has moved,
    [num_bytes * (now - last_update)] is added to the 64-bit
    [total_byte_seconds] and [last_update] becomes [now]; the difference
    of the two times is a [rel_time_t]. *)
Definition time_weighted_flush (now : Z) (a : PREFIX_STATS) : PREFIX_STATS :=
  if decide (now <> last_update a) then
    set_last_update now
      (set_total_byte_seconds
         (u64 (total_byte_seconds a
               + num_bytes a * rel_time (now - last_update a)))
         a)
  else a.

(** One complete line of the report. *)
Definition dump_line (name : list ascii) (a : PREFIX_STATS) : list ascii :=
  list_ascii_of_string "PREFIX " ++ name
  ++ list_ascii_of_string " item " ++ utoa (num_items a)
  ++ list_ascii_of_string " get " ++ utoa (num_gets a)
  ++ list_ascii_of_string " hit " ++ utoa (num_hits a)
  ++ list_ascii_of_string " set " ++ utoa (num_sets a)
  ++ list_ascii_of_string " del " ++ utoa (num_deletes a)
  ++ list_ascii_of_string " evict " ++ utoa (num_evicts a)
  ++ list_ascii_of_string " ov " ++ utoa (num_overwrites a)
  ++ list_ascii_of_string " exp " ++ utoa (num_expires a)
  ++ list_ascii_of_string " bytes " ++ utoa (num_bytes a)
  ++ list_ascii_of_string " txed " ++ utoa (bytes_txed a)
  ++ list_ascii_of_string " byte-seconds " ++ utoa (total_byte_seconds a)
  ++ [CR; LF].

(** The number a string of decimal digits denotes. *)
Definition digit_value (c : ascii) : Z := Z.of_nat (nat_of_ascii c) - 48.

Definition decimal_value (s : list ascii) : Z :=
  foldl (fun v c => 10 * v + digit_value c) 0 s.

(** The line the inner loop formats for a node. *)
Definition chain_line (a : PREFIX_STATS) : list ascii :=
  dump_line (precision_string (int (u32 (prefix_len a))) (prefix a)) a.

(** The complete report of a registry whose accumulators are already
    flushed: a line per node in table order, the wildcard line when it
    has seen a get, a set or a delete, and the terminator. *)
Definition dump_text (r : registry) : list ascii :=
  flat_map (fun a => dump_line (c_string (prefix a)) a) (chained r)
  ++ (if decide (num_gets (wildcard r) <> 0 \/ num_sets (wildcard r) <> 0
                 \/ num_deletes (wildcard r) <> 0)
      then dump_line (list_ascii_of_string wildcard_name) (wildcard r)
      else [])
  ++ list_ascii_of_string terminator.

(** The size of the dump buffer in the words of the design: the stored
    prefix bytes, and for every node, the wildcard line included, the
    format with each of its eleven numeric conversions counted as twenty
    digits, and the sizes of the wildcard name and of the terminator. *)
Definition dump_bound (r : registry) : Z :=
  prefix_bytes (chained r)
  + (Z.of_nat (List.length (chained r)) + 1)
    * (format_strlen STATS_PREFIX_DUMP_FORMAT
       + 11 * (20 - (2 + Z.of_nat (String.length PRINTF_INT64_MODIFIER))))
  + sizeof_string wildcard_name
  + sizeof_string terminator.

End Stats.

(** The settings of the unit tests of stats.c ([prefix_delimiter] is
    [':']), with a simple multiplicative hash and one bit per flag. *)
Definition unit_test_externals : Externals :=
  {| hash := fun key initval =>
       foldl (fun h c => h * 31 + Z.of_nat (nat_of_ascii c)) initval key;
     prefix_delimiter := ":"%char;
     PREFIX_INCR_ITEM_COUNT := 1;
     PREFIX_IS_OVERWRITE := 2;
     UNLINK_IS_EVICT := 1;
     UNLINK_IS_EXPIRED := 2;
     PRINTF_INT64_MODIFIER := "ll" |}.

(** The keys and registries of the examples. *)
Definition key_abc_123 : list ascii := list_ascii_of_string "abc:123".
Definition key_abc_d : list ascii := list_ascii_of_string "abc:d".
Definition key_xyz123 : list ascii := list_ascii_of_string "xyz123".

(** The accumulator of prefix [abc], first of its bucket. *)
Definition p_abc : pfs_ptr :=
  Chained (key_hashval (H := unit_test_externals) key_abc_123) 0.

(** The registry after a first set of [abc:123]. *)
Definition r_abc : registry :=
  stats_prefix_record_set (H := unit_test_externals) key_abc_123 pool_ok
    stats_prefix_init.

(** The registry after 100 bytes were stored under [abc] at time 10. *)
Definition r_bytes : registry :=
  stats_prefix_record_byte_total_change (H := unit_test_externals)
    key_abc_123 100 1 10 pool_ok stats_prefix_init.

(** The accumulator of [abc] in [r_abc]. *)
Definition a_abc : PREFIX_STATS :=
  mkPREFIX_STATS (list_ascii_of_string "abc") 3 0 0 0 0 1 0 0 0 0 0 0 0.

(** A key that begins with the delimiter. *)
Definition key_colon_x : list ascii := list_ascii_of_string ":x".

(** Calls for [abc] mixed with calls for other keys and a dump: a set
    that would fail to allocate, a hit on the wildcard, 100 bytes stored
    under [abc] and removed again, a dump. *)
Definition calls_mixed : list call :=
  [call_record_set key_abc_d pool_calloc_null;
   call_record_get key_xyz123 1 true pool_ok;
   call_record_byte_total_change key_abc_123 100 1 10 pool_ok;
   call_dump 11 true;
   call_record_removal key_abc_d 100 0 0 12 pool_ok;
   call_record_delete key_colon_x pool_ok].

(** The registry after one byte was removed at time 9 under a prefix
    that held none. *)
Definition r_underflow : registry :=
  stats_prefix_record_removal (H := unit_test_externals) key_abc_123 1 0 0 9
    pool_ok stats_prefix_init.

(** A key whose prefix is [n] times the letter [a], and the registry
    after a first set of it. *)
Definition long_key (n : nat) : list ascii :=
  replicate n "a"%char ++ list_ascii_of_string ":x".

Definition r_long_key (n : nat) : registry :=
  stats_prefix_record_set (H := unit_test_externals) (long_key n) pool_ok
    stats_prefix_init.

(** ** Further notions: the table as a hash table, sequences of calls *)

Section FurtherNotions.
Context `{Externals}.

(** The bucket a prefix hashes to. *)
Definition prefix_hashval (pre : list ascii) : nat :=
  Z.to_nat (u32 (hash pre 0) mod PREFIX_HASH_SIZE).

(** A node in its place: it hangs off the bucket its prefix hashes to,
    its prefix is free of the delimiter, and [prefix_len] is the length
    of the prefix. *)
Definition node_ok (i : nat) (a : PREFIX_STATS) : Prop :=
  prefix_hashval (prefix a) = i
  /\ (prefix_delimiter ∉ prefix a)
  /\ prefix_len a = Z.of_nat (List.length (prefix a)).

(** Every chain holds nodes in their place, no prefix twice. *)
Definition table_ok (r : registry) : Prop :=
  forall i, (i < Z.to_nat PREFIX_HASH_SIZE)%nat ->
    Forall (node_ok i) (bucket r i) /\ NoDup (map prefix (bucket r i)).

(** The pointer the scan of [stats_prefix_find] comes to for a key,
    when it comes to one without allocating. *)
Definition resolves (key : list ascii) (r : registry) (p : pfs_ptr) : Prop :=
  ((prefix_delimiter ∉ key) /\ p = Wildcard)
  \/ (prefix_delimiter ∈ key
      /\ exists k,
           p = Chained (key_hashval key) k
           /\ chain_find key (delimiter_scan key) (bucket r (key_hashval key))
              = Some k).


(** An update that leaves the stored prefix alone. *)
Definition keeps_prefix (f : PREFIX_STATS -> PREFIX_STATS) : Prop :=
  forall a, prefix (f a) = prefix a /\ prefix_len (f a) = prefix_len a.

(** Two keys that share an accumulator by the naming rule: neither has
    a delimiter, or both have one after the same bytes. *)
Definition same_prefix (key1 key2 : list ascii) : Prop :=
  ((prefix_delimiter ∉ key1) /\ (prefix_delimiter ∉ key2))
  \/ (prefix_delimiter ∈ key1 /\ prefix_delimiter ∈ key2
      /\ key_prefix key1 = key_prefix key2).

(** Calls other than [stats_prefix_clear]. *)
Definition no_clear (cs : list call) : Prop :=
  Forall (fun c => c <> call_clear) cs.

#[global] Instance same_prefix_dec key1 key2 : Decision (same_prefix key1 key2).
Proof. unfold same_prefix. apply _. Defined.







(** A sequence of public calls, first to last. *)
Definition run_all (cs : list call) (r : registry) : registry :=
  foldl (fun r c => run c r) r cs.

(** Two registries with the same array, counters and wildcard. *)
Definition same_registry (r r' : registry) : Prop :=
  (forall i, (i < Z.to_nat PREFIX_HASH_SIZE)%nat -> bucket r i = bucket r' i)
  /\ num_prefixes r = num_prefixes r'
  /\ total_prefix_size r = total_prefix_size r'
  /\ wildcard r = wildcard r'.

End FurtherNotions.

(** * Properties *)

(** ** Wrap-around arithmetic *)

Module MachineIntFacts.

Lemma u64_range x : 0 <= u64 x < 2 ^ 64.
Proof. unfold u64, wrap. apply Z.mod_pos_bound. lia. Qed.

Lemma u32_range x : 0 <= u32 x < 2 ^ 32.
Proof. unfold u32, wrap. apply Z.mod_pos_bound. lia. Qed.

Lemma u64_small x : 0 <= x < 2 ^ 64 -> u64 x = x.
Proof. intros. unfold u64, wrap. apply Z.mod_small. lia. Qed.

Lemma u32_small x : 0 <= x < 2 ^ 32 -> u32 x = x.
Proof. intros. unfold u32, wrap. apply Z.mod_small. lia. Qed.

Lemma int_small x : - 2 ^ 31 <= x <= INT_MAX -> int x = x.
Proof. intros. unfold int, INT_MAX in *. rewrite Z.mod_small; lia. Qed.

Lemma u64_add_u64_r a b : u64 (a + u64 b) = u64 (a + b).
Proof. unfold u64, wrap. apply Zplus_mod_idemp_r. Qed.

Lemma u64_borrow a b :
  0 <= a -> a < b -> b < 2 ^ 64 -> u64 (a - b) = a - b + 2 ^ 64.
Proof.
  intros. unfold u64, wrap.
  symmetry. apply Z.mod_unique with (q := -1); lia.
Qed.

Lemma u32_borrow_one : u32 (0 - 1) = 2 ^ 32 - 1.
Proof. reflexivity. Qed.

(** The clock difference after [k] ticks, whether or not the clock
    itself wrapped meanwhile. *)
Lemma rel_time_elapsed t k :
  0 <= k < 2 ^ 32 -> rel_time (rel_time (t + k) - t) = k.
Proof.
  intros. unfold rel_time, u32, wrap.
  rewrite Zminus_mod_idemp_l.
  replace (t + k - t) with k by lia. apply Z.mod_small. lia.
Qed.

End MachineIntFacts.
Import MachineIntFacts.

(** ** Chains *)

Section ChainFacts.
Context `{Externals}.
Implicit Types (pfs : list PREFIX_STATS) (f : PREFIX_STATS -> PREFIX_STATS).

Lemma chain_get_rank pfs k a : chain_get pfs k = Some a -> (k < length pfs)%nat.
Proof.
  induction pfs as [|p next IH]; simpl; [discriminate|].
  destruct (decide (k = length next)); [lia|].
  intros Hk. apply IH in Hk. lia.
Qed.

Lemma chain_get_behind p pfs : chain_get (p :: pfs) (length pfs) = Some p.
Proof. simpl. now rewrite decide_True. Qed.

Lemma chain_set_length f k pfs : length (chain_set f k pfs) = length pfs.
Proof.
  induction pfs as [|p next IH]; simpl; [reflexivity|].
  destruct (decide (k = length next)); simpl; congruence.
Qed.

Lemma chain_get_set f k pfs :
  chain_get (chain_set f k pfs) k = f <$> chain_get pfs k.
Proof.
  induction pfs as [|p next IH]; simpl; [reflexivity|].
  destruct (decide (k = length next)) as [->|Hne]; simpl.
  - now rewrite decide_True.
  - rewrite chain_set_length, decide_False by assumption. exact IH.
Qed.

Lemma chain_get_set_other f k k' pfs :
  k <> k' -> chain_get (chain_set f k pfs) k' = chain_get pfs k'.
Proof.
  intros Hkk. induction pfs as [|p next IH]; simpl; [reflexivity|].
  destruct (decide (k = length next)) as [->|Hne]; simpl.
  - rewrite !decide_False by congruence. reflexivity.
  - rewrite chain_set_length.
    destruct (decide (k' = length next)); [reflexivity | exact IH].
Qed.

(** A successful scan returns a node of the chain whose stored length
    and bytes are those of the candidate. *)
Lemma chain_find_Some key n pfs k :
  chain_find key n pfs = Some k ->
  exists a, chain_get pfs k = Some a
            /\ prefix_len a = Z.of_nat n
            /\ take n (prefix a) = take n key.
Proof.
  induction pfs as [|p next IH]; simpl; [discriminate|].
  destruct (Z.of_nat n =? prefix_len p) eqn:Hlen; simpl.
  - unfold memcmp_eq. case_bool_decide as Hcmp.
    + intros [= <-]. exists p. rewrite decide_True by reflexivity.
      split; [reflexivity|]. split; [|assumption].
      symmetry. now apply Z.eqb_eq.
    + intros Hk. destruct (IH Hk) as (a & Ha & Hrest).
      exists a. split; [|exact Hrest].
      rewrite decide_False; [assumption|].
      apply chain_get_rank in Ha. lia.
  - intros Hk. destruct (IH Hk) as (a & Ha & Hrest).
    exists a. split; [|exact Hrest].
    rewrite decide_False; [assumption|].
    apply chain_get_rank in Ha. lia.
Qed.

(** The scan looks at the key only through its first [n] bytes. *)
Lemma chain_find_prefix key1 key2 n pfs :
  take n key1 = take n key2 ->
  chain_find key1 n pfs = chain_find key2 n pfs.
Proof.
  intros Heq. induction pfs as [|p next IH]; simpl; [reflexivity|].
  unfold memcmp_eq. rewrite Heq, IH. reflexivity.
Qed.

Lemma delimiter_scan_le key : (delimiter_scan key <= length key)%nat.
Proof.
  induction key as [|c rest IH]; simpl; [lia|].
  destruct (decide (c = prefix_delimiter)); lia.
Qed.

Lemma delimiter_scan_absent key :
  prefix_delimiter ∉ key <-> delimiter_scan key = length key.
Proof.
  induction key as [|c rest IH]; simpl.
  - split; [reflexivity|]. intros _. apply not_elem_of_nil.
  - rewrite not_elem_of_cons.
    destruct (decide (c = prefix_delimiter)) as [->|Hne].
    + split; [intros [? _]; congruence | discriminate].
    + rewrite IH. split; [intros [_ ->]; reflexivity|].
      intros [= ?]. split; [congruence | assumption].
Qed.

Lemma key_prefix_length key : length (key_prefix key) = delimiter_scan key.
Proof.
  unfold key_prefix. rewrite length_take.
  pose proof (delimiter_scan_le key). lia.
Qed.

End ChainFacts.

(** ** stats_prefix_find *)

Section FindFacts.
Context `{Externals}.

Lemma key_hashval_lt key : (key_hashval key < Z.to_nat PREFIX_HASH_SIZE)%nat.
Proof.
  unfold key_hashval, PREFIX_HASH_SIZE.
  pose proof (Z.mod_pos_bound (u32 (hash (key_prefix key) 0)) 256). lia.
Qed.

(** The outcomes of the function, one per [return] of the C text. *)
Lemma stats_prefix_find_cases key pool r :
  let n := delimiter_scan key in
  let h := key_hashval key in
  ((prefix_delimiter ∉ key)
   /\ stats_prefix_find key pool r = (Some Wildcard, r))
  \/ (prefix_delimiter ∈ key
      /\ exists k, chain_find key n (bucket r h) = Some k
         /\ stats_prefix_find key pool r = (Some (Chained h k), r))
  \/ (prefix_delimiter ∈ key
      /\ chain_find key n (bucket r h) = None
      /\ pool = pool_ok
      /\ stats_prefix_find key pool r
         = (Some (Chained h (length (bucket r h))),
            mkRegistry (<[h := new_node key :: bucket r h]> (prefix_stats r))
              (int (num_prefixes r + 1))
              (int (total_prefix_size r + Z.of_nat n))
              (wildcard r)))
  \/ (prefix_delimiter ∈ key
      /\ chain_find key n (bucket r h) = None
      /\ pool <> pool_ok
      /\ stats_prefix_find key pool r = (None, r)).
Proof.
  intros n h. unfold stats_prefix_find.
  destruct (decide (delimiter_scan key = length key)) as [Habs|Hpres].
  - left. split; [now apply delimiter_scan_absent | reflexivity].
  - right.
    assert (Hin : prefix_delimiter ∈ key).
    { destruct (decide (prefix_delimiter ∈ key)) as [|Hn]; [assumption|].
      apply delimiter_scan_absent in Hn. contradiction. }
    fold (key_prefix key). fold (key_hashval key). fold h. fold n.
    destruct (chain_find key n (bucket r h)) as [k|] eqn:Hfind.
    + left. split; [assumption|]. exists k. split; reflexivity.
    + right. destruct pool.
      * left. repeat split; try assumption; reflexivity.
      * right. repeat split; try assumption; try discriminate; reflexivity.
      * right. repeat split; try assumption; try discriminate; reflexivity.
Qed.

(** Whatever pointer the function returns designates, in the registry it
    returns, a structure carrying the prefix of the key. *)
Lemma stats_prefix_find_node key pool r h k r1 :
  stats_prefix_find key pool r = (Some (Chained h k), r1) ->
  h = key_hashval key
  /\ exists a, chain_get (bucket r1 h) k = Some a
       /\ prefix_len a = Z.of_nat (delimiter_scan key)
       /\ take (delimiter_scan key) (prefix a) = key_prefix key.
Proof.
  intros Hf.
  destruct (stats_prefix_find_cases key pool r)
    as [[_ E]|[(_ & k' & Hk & E)|[(_ & Hn & _ & E)|(_ & _ & _ & E)]]];
    rewrite E in Hf; inversion Hf; subst; clear Hf.
  - split; [reflexivity|]. now apply chain_find_Some.
  - split; [reflexivity|]. exists (new_node key).
    unfold bucket at 1. simpl. rewrite fn_lookup_insert.
    split; [apply chain_get_behind|]. split; [reflexivity|].
    simpl. unfold key_prefix. rewrite take_take. f_equal. lia.
Qed.

Lemma stats_prefix_find_deref key pool r p r1 :
  stats_prefix_find key pool r = (Some p, r1) ->
  exists a, deref r1 p = Some a.
Proof.
  destruct p as [|h k]; intros Hf; simpl; [eauto|].
  apply stats_prefix_find_node in Hf as (_ & a & Ha & _). eauto.
Qed.

Lemma stats_prefix_find_in_table key pool r p r1 :
  stats_prefix_find key pool r = (Some p, r1) -> in_table p.
Proof.
  destruct p as [|h k]; intros Hf; simpl; [exact I|].
  apply stats_prefix_find_node in Hf as (-> & _). apply key_hashval_lt.
Qed.

(** Keys with the same prefix are not told apart. *)
Lemma stats_prefix_find_prefix key1 key2 pool r :
  prefix_delimiter ∈ key1 -> prefix_delimiter ∈ key2 ->
  key_prefix key1 = key_prefix key2 ->
  stats_prefix_find key1 pool r = stats_prefix_find key2 pool r.
Proof.
  intros Hin1 Hin2 Heq.
  assert (Hn : delimiter_scan key1 = delimiter_scan key2)
    by (rewrite <- !key_prefix_length; congruence).
  unfold stats_prefix_find.
  destruct (decide (delimiter_scan key1 = length key1)) as [E|_];
    [apply delimiter_scan_absent in E; contradiction|].
  destruct (decide (delimiter_scan key2 = length key2)) as [E|_];
    [apply delimiter_scan_absent in E; contradiction|].
  fold (key_prefix key1). fold (key_prefix key2). rewrite <- Heq, <- Hn.
  rewrite (chain_find_prefix key1 key2).
  - reflexivity.
  - fold (key_prefix key1). rewrite Hn. exact Heq.
Qed.

(** Looking the same key up again returns the same pointer and changes
    nothing, whatever the allocator would answer. *)
Lemma stats_prefix_find_again key pool pool' r p r1 :
  stats_prefix_find key pool r = (Some p, r1) ->
  stats_prefix_find key pool' r1 = (Some p, r1).
Proof.
  intros Hf.
  destruct (stats_prefix_find_cases key pool r)
    as [[Hout E]|[(Hin & k & Hk & E)|[(Hin & Hn & _ & E)|(_ & _ & _ & E)]]];
    rewrite E in Hf; inversion Hf; subst; clear Hf E.
  - destruct (stats_prefix_find_cases key pool' r1)
      as [[_ E]|[(Hin & _)|[(Hin & _)|(Hin & _)]]];
      [exact E | contradiction..].
  - destruct (stats_prefix_find_cases key pool' r1)
      as [[Hout _]|[(_ & k' & Hk' & E)|[(_ & Hn & _)|(_ & Hn & _)]]];
      [contradiction | | congruence..].
    rewrite E. congruence.
  - set (r1 := mkRegistry _ _ _ _).
    assert (Hb : bucket r1 (key_hashval key)
                 = new_node key :: bucket r (key_hashval key)).
    { unfold bucket, r1. simpl. apply fn_lookup_insert. }
    assert (Hhead : chain_find key (delimiter_scan key)
                      (bucket r1 (key_hashval key))
                    = Some (length (bucket r (key_hashval key)))).
    { rewrite Hb. simpl. rewrite Z.eqb_refl. unfold memcmp_eq.
      rewrite bool_decide_true; [reflexivity|].
      unfold key_prefix. rewrite take_take. f_equal. lia. }
    destruct (stats_prefix_find_cases key pool' r1)
      as [[Hout _]|[(_ & k' & Hk' & E)|[(_ & Hn' & _)|(_ & Hn' & _)]]];
      [contradiction | | congruence..].
    rewrite E. congruence.
Qed.

End FindFacts.

(** ** Keys and the accumulators they resolve to *)

Section Resolution.
Context `{Externals}.

(** C4.  A key in which the delimiter does not occur resolves to the
    shared wildcard accumulator whatever its bytes are; the allocator is
    not consulted (the answer is the same for every allocator outcome)
    and the registry returned is the registry given: buckets, number of
    prefixes and total prefix size are untouched. *)
Theorem no_delimiter_is_wildcard (key : list ascii) (pool : pool_outcome)
    (r : registry) :
  prefix_delimiter ∉ key ->
  stats_prefix_find key pool r = (Some Wildcard, r).
Proof.
  intros Hout.
  destruct (stats_prefix_find_cases key pool r)
    as [[_ E]|[(Hin & _)|[(Hin & _)|(Hin & _)]]].
  - exact E.
  - contradiction.
  - contradiction.
  - contradiction.
Qed.

(** Two keys that both contain the delimiter, compared by what the scan
    of [stats_prefix_find] takes for their prefixes. *)
Lemma stats_prefix_find_by_prefix (key1 key2 : list ascii) (r : registry) :
  prefix_delimiter ∈ key1 ->
  prefix_delimiter ∈ key2 ->
  (exists p r1, stats_prefix_find key1 pool_ok r = (Some p, r1))
  /\ (key_prefix key1 = key_prefix key2 ->
      forall pool,
        stats_prefix_find key1 pool r = stats_prefix_find key2 pool r)
  /\ forall pool1 pool2 p r1,
       stats_prefix_find key1 pool1 r = (Some p, r1) ->
       (key_prefix key1 = key_prefix key2 ->
        stats_prefix_find key2 pool2 r1 = (Some p, r1))
       /\ (key_prefix key1 <> key_prefix key2 ->
           forall q r2,
             stats_prefix_find key2 pool2 r1 = (Some q, r2) -> q <> p).
Proof.
  intros Hin1 Hin2. split; [|split].
  - destruct (stats_prefix_find_cases key1 pool_ok r)
      as [[Hout _]|[(_ & k & _ & E)|[(_ & _ & _ & E)|(_ & _ & Hp & _)]]];
      [contradiction | eauto | eauto | congruence].
  - intros Heq pool. now apply stats_prefix_find_prefix.
  - intros pool1 pool2 p r1 Hf1. split.
    + intros Heq.
      rewrite <- (stats_prefix_find_prefix key1 key2) by assumption.
      now apply stats_prefix_find_again with (pool := pool1) (r := r).
    + intros Hne q r2 Hf2 ->.
      destruct p as [|h k].
      { destruct (stats_prefix_find_cases key1 pool1 r)
          as [[Hout _]|[(_ & k' & _ & E')|[(_ & _ & _ & E')|(_ & _ & _ & E')]]];
          [contradiction | congruence..]. }
      pose proof (stats_prefix_find_node _ _ _ _ _ _ Hf1)
        as (Hh1 & a1 & Ha1 & Hl1 & Hp1).
      destruct (stats_prefix_find_cases key2 pool2 r1)
        as [[Hout _]|[(_ & k' & Hk' & E)|[(_ & _ & _ & E)|(_ & _ & _ & E)]]];
        [contradiction | | | congruence].
      * rewrite E in Hf2. inversion Hf2; subst h k r2. clear Hf2.
        apply chain_find_Some in Hk' as (a2 & Ha2 & Hl2 & Hp2).
        rewrite H1 in Ha2. rewrite Ha1 in Ha2. inversion Ha2; subst a2.
        assert (Hn : delimiter_scan key1 = delimiter_scan key2) by lia.
        apply Hne. rewrite <- Hp1. unfold key_prefix.
        rewrite <- Hp2, Hn. reflexivity.
      * rewrite E in Hf2. inversion Hf2; subst h k. clear Hf2.
        rewrite H1 in Ha1. apply chain_get_rank in Ha1. lia.
Qed.

(** The scan on a key written as bytes free of the delimiter, the
    delimiter, and any bytes. *)
Lemma delimiter_scan_split pre rest :
  prefix_delimiter ∉ pre ->
  delimiter_scan (pre ++ prefix_delimiter :: rest) = length pre.
Proof.
  induction pre as [|c pre IH]; intros Hout; cbn [app delimiter_scan length].
  - now rewrite decide_True.
  - apply not_elem_of_cons in Hout as [Hc Hout].
    rewrite decide_False by congruence. now rewrite IH.
Qed.

Lemma key_prefix_split pre rest :
  prefix_delimiter ∉ pre ->
  key_prefix (pre ++ prefix_delimiter :: rest) = pre.
Proof.
  intros Hout. unfold key_prefix. rewrite delimiter_scan_split by assumption.
  now rewrite take_app_length.
Qed.

Lemma delimiter_in_split pre rest :
  prefix_delimiter ∈ pre ++ prefix_delimiter :: rest.
Proof. apply elem_of_app. right. apply list_elem_of_here. Qed.

(** C3.  Take two keys, each written as some bytes free of the
    delimiter (the bytes before its first delimiter), the delimiter, and
    any bytes after it.  When the pool can allocate, the first resolves
    to an accumulator.  When the bytes before the first delimiter are the
    same in both keys, [stats_prefix_find] does not tell the keys apart.
    Whenever the first resolves to an accumulator [p]: if the bytes
    before the first delimiter are the same in both keys, the second
    resolves to [p] as well, with no allocation and no change to the
    registry; if they differ, in length or in some byte, the second
    resolves to another accumulator; in particular when the prefix of
    the first key is a proper byte-prefix of the prefix of the second,
    or the other way round. *)
Theorem same_prefix_same_accumulator
    (pre1 pre2 rest1 rest2 : list ascii) (r : registry) :
  prefix_delimiter ∉ pre1 ->
  prefix_delimiter ∉ pre2 ->
  let key1 := pre1 ++ prefix_delimiter :: rest1 in
  let key2 := pre2 ++ prefix_delimiter :: rest2 in
  (exists p r1, stats_prefix_find key1 pool_ok r = (Some p, r1))
  /\ (pre1 = pre2 ->
      forall pool,
        stats_prefix_find key1 pool r = stats_prefix_find key2 pool r)
  /\ forall pool1 pool2 p r1,
       stats_prefix_find key1 pool1 r = (Some p, r1) ->
       (pre1 = pre2 ->
        stats_prefix_find key2 pool2 r1 = (Some p, r1))
       /\ (pre1 <> pre2 ->
           forall q r2,
             stats_prefix_find key2 pool2 r1 = (Some q, r2) -> q <> p)
       /\ (forall more,
             more <> [] ->
             pre2 = pre1 ++ more \/ pre1 = pre2 ++ more ->
             forall q r2,
               stats_prefix_find key2 pool2 r1 = (Some q, r2) -> q <> p).
Proof.
  intros Hout1 Hout2 key1 key2.
  destruct (stats_prefix_find_by_prefix key1 key2 r
              (delimiter_in_split pre1 rest1) (delimiter_in_split pre2 rest2))
    as (Hsome & Hsame & Hrest).
  unfold key1, key2 in Hsame, Hrest.
  rewrite !key_prefix_split in Hsame, Hrest by assumption.
  split; [exact Hsome|]. split; [exact Hsame|].
  intros pool1 pool2 p r1 Hf.
  destruct (Hrest pool1 pool2 p r1 Hf) as [Heq Hne].
  split; [exact Heq|]. split; [exact Hne|].
  intros more Hmore Hext. apply Hne.
  intros E. apply Hmore.
  destruct Hext as [Hext|Hext]; rewrite E in Hext;
    apply (f_equal (@length _)) in Hext; rewrite length_app in Hext;
    destruct more; [reflexivity | cbn [length] in Hext; lia
                   | reflexivity | cbn [length] in Hext; lia].
Qed.

End Resolution.

(** ** Reading and writing through pointers *)

Section PointerFacts.
Implicit Types (r : registry) (p q : pfs_ptr) (f : PREFIX_STATS -> PREFIX_STATS).

Lemma deref_store_same r p f a :
  deref r p = Some a -> deref (store p f r) p = Some (f a).
Proof.
  destruct p as [|h k]; simpl.
  - now intros [= ->].
  - unfold bucket. simpl. intros Ha.
    rewrite fn_lookup_insert, chain_get_set, Ha. reflexivity.
Qed.

Lemma deref_store_other r p q f :
  q <> p -> deref (store p f r) q = deref r q.
Proof.
  intros Hne. destruct p as [|h k], q as [|h' k']; simpl;
    try reflexivity; try congruence.
  unfold bucket. simpl.
  destruct (decide (h = h')) as [<-|Hh].
  - rewrite fn_lookup_insert. apply chain_get_set_other. congruence.
  - now rewrite fn_lookup_insert_ne.
Qed.

Lemma store_counters r p f :
  num_prefixes (store p f r) = num_prefixes r
  /\ total_prefix_size (store p f r) = total_prefix_size r.
Proof. destruct p; split; reflexivity. Qed.

End PointerFacts.

(** ** The record entry points *)

Section RecordFacts.
Context `{Externals}.

(** The common shape of the five functions: nothing happens when
    [stats_prefix_find] returns [NULL]. *)
Lemma record_skipped key pool r r1 :
  stats_prefix_find key pool r = (None, r1) ->
  r1 = r
  /\ (forall nbytes is_hit,
        stats_prefix_record_get key nbytes is_hit pool r = r)
  /\ stats_prefix_record_delete key pool r = r
  /\ stats_prefix_record_set key pool r = r
  /\ (forall bytes flags now,
        stats_prefix_record_byte_total_change key bytes flags now pool r = r)
  /\ (forall bytes time flags now,
        stats_prefix_record_removal key bytes time flags now pool r = r).
Proof.
  intros Hf.
  assert (r1 = r) as ->.
  { destruct (stats_prefix_find_cases key pool r)
      as [[_ E]|[(_ & k & _ & E)|[(_ & _ & _ & E)|(_ & _ & _ & E)]]];
      congruence. }
  unfold stats_prefix_record_get, stats_prefix_record_delete,
    stats_prefix_record_set, stats_prefix_record_byte_total_change,
    stats_prefix_record_removal.
  rewrite Hf. repeat split.
Qed.

(** C7.  Let a get be recorded for a key that resolves to the accumulator
    [p], holding [a] when the counters are about to be updated.  After
    a miss, [p] holds [a] with [num_gets] incremented (on 64 bits) and
    nothing else changed, so [num_hits] and [bytes_txed] are as before.
    After a hit, [num_gets] and [num_hits] are incremented and [nbytes]
    is added to [bytes_txed].  In both cases [num_bytes],
    [total_byte_seconds] and [last_update] are as before: there is no
    time flush.  Every other accumulator is untouched.  The increments
    are exact as long as the 64-bit counters do not overflow. *)
Theorem record_get_counts (key : list ascii) (nbytes : Z)
    (pool : pool_outcome) (r r1 : registry) (p : pfs_ptr) :
  stats_prefix_find key pool r = (Some p, r1) ->
  exists a miss hit,
    deref r1 p = Some a
    /\ deref (stats_prefix_record_get key nbytes false pool r) p = Some miss
    /\ deref (stats_prefix_record_get key nbytes true pool r) p = Some hit
    /\ miss = set_num_gets (u64 (num_gets a + 1)) a
    /\ (num_gets miss = u64 (num_gets a + 1)
        /\ num_hits miss = num_hits a
        /\ bytes_txed miss = bytes_txed a)
    /\ (num_gets hit = u64 (num_gets a + 1)
        /\ num_hits hit = u64 (num_hits a + 1)
        /\ bytes_txed hit = u64 (bytes_txed a + nbytes))
    /\ (forall x, x = miss \/ x = hit ->
        num_bytes x = num_bytes a
        /\ total_byte_seconds x = total_byte_seconds a
        /\ last_update x = last_update a
        /\ prefix x = prefix a /\ prefix_len x = prefix_len a
        /\ num_items x = num_items a /\ num_sets x = num_sets a
        /\ num_deletes x = num_deletes a /\ num_evicts x = num_evicts a
        /\ num_overwrites x = num_overwrites a
        /\ num_expires x = num_expires a)
    /\ (forall is_hit q, q <> p ->
        deref (stats_prefix_record_get key nbytes is_hit pool r) q
        = deref r1 q)
    /\ (0 <= num_gets a -> num_gets a + 1 < 2 ^ 64 ->
        num_gets miss = num_gets a + 1 /\ num_gets hit = num_gets a + 1)
    /\ (0 <= num_hits a -> num_hits a + 1 < 2 ^ 64 ->
        num_hits hit = num_hits a + 1)
    /\ (0 <= bytes_txed a + nbytes < 2 ^ 64 ->
        bytes_txed hit = bytes_txed a + nbytes).
Proof.
  intros Hf.
  destruct (stats_prefix_find_deref _ _ _ _ _ Hf) as [a Ha].
  exists a. eexists. eexists.
  split; [exact Ha|].
  unfold stats_prefix_record_get. rewrite Hf.
  split; [apply deref_store_same; exact Ha|].
  split; [apply deref_store_same; exact Ha|].
  simpl. split; [reflexivity|].
  split; [repeat split|]. split; [repeat split|].
  split; [intros x [-> | ->]; repeat split|].
  split; [intros is_hit q Hq; now apply deref_store_other|].
  split; [intros; rewrite u64_small by lia; split; reflexivity|].
  split; intros; rewrite u64_small by lia; reflexivity.
Qed.

(** C10.  A removal subtracts its byte count from the 64-bit [num_bytes]
    and one from the 32-bit [num_items], both without a guard: when the
    bytes removed exceed the bytes held, [num_bytes] becomes the
    difference plus [2^64]; when [num_items] is zero it becomes
    [2^32 - 1].  Neither saturates nor goes negative. *)
Theorem record_removal_wraps (key : list ascii) (bytes time flags now : Z)
    (pool : pool_outcome) (r r1 : registry) (p : pfs_ptr) :
  stats_prefix_find key pool r = (Some p, r1) ->
  exists a a',
    deref r1 p = Some a
    /\ deref (stats_prefix_record_removal key bytes time flags now pool r) p
       = Some a'
    /\ num_bytes a' = u64 (num_bytes a - bytes)
    /\ num_items a' = u32 (num_items a - 1)
    /\ 0 <= num_bytes a' < 2 ^ 64
    /\ 0 <= num_items a' < 2 ^ 32
    /\ (0 <= num_bytes a -> num_bytes a < bytes -> bytes < 2 ^ 64 ->
        num_bytes a' = num_bytes a - bytes + 2 ^ 64)
    /\ (num_items a = 0 -> num_items a' = 2 ^ 32 - 1).
Proof.
  intros Hf.
  destruct (stats_prefix_find_deref _ _ _ _ _ Hf) as [a Ha].
  exists a. eexists. split; [exact Ha|].
  unfold stats_prefix_record_removal. rewrite Hf.
  split; [apply deref_store_same; exact Ha|].
  destruct (decide (Z.land flags UNLINK_IS_EVICT <> 0));
    [|destruct (decide (Z.land flags UNLINK_IS_EXPIRED <> 0))];
    (destruct (decide (now <> last_update _)); simpl;
     (split; [reflexivity|]); (split; [reflexivity|]);
     (split; [apply u64_range|]); (split; [apply u32_range|]);
     (split; [intros; now apply u64_borrow|]);
     intros ->; apply u32_borrow_one).
Qed.

(** C8.  When the prefix of a key is not in the table and the pool fails
    either allocation, [stats_prefix_find] returns no accumulator and
    leaves the registry as it is.  Whenever it returns no accumulator,
    an allocation has failed, and each of the five record functions
    returns the registry unchanged: no accumulator, bucket or counter is
    modified.  When the buffer of the dump cannot be allocated, the dump
    returns no buffer and the registry unchanged: nothing is printed and
    no accumulator is flushed. *)
Theorem allocation_failure_skips (key : list ascii) (pool : pool_outcome)
    (r : registry) (now : Z) :
  (pool <> pool_ok ->
   prefix_delimiter ∈ key ->
   chain_find key (delimiter_scan key) (bucket r (key_hashval key)) = None ->
   stats_prefix_find key pool r = (None, r))
  /\ (forall r1,
        stats_prefix_find key pool r = (None, r1) ->
        pool <> pool_ok
        /\ r1 = r
        /\ (forall nbytes is_hit,
              stats_prefix_record_get key nbytes is_hit pool r = r)
        /\ stats_prefix_record_delete key pool r = r
        /\ stats_prefix_record_set key pool r = r
        /\ (forall bytes flags current_time,
              stats_prefix_record_byte_total_change key bytes flags
                current_time pool r = r)
        /\ (forall bytes time flags current_time,
              stats_prefix_record_removal key bytes time flags
                current_time pool r = r))
  /\ stats_prefix_dump now false r = (None, r).
Proof.
  split; [|split].
  - intros Hpool Hin Hnone.
    destruct (stats_prefix_find_cases key pool r)
      as [[Hout _]|[(_ & k & Hk & _)|[(_ & _ & Hp & _)|(_ & _ & _ & E)]]];
      [contradiction | congruence | contradiction | exact E].
  - intros r1 Hf. split; [|now apply record_skipped].
    destruct (stats_prefix_find_cases key pool r)
      as [[_ E]|[(_ & k & _ & E)|[(_ & _ & _ & E)|(_ & _ & Hp & _)]]];
      [congruence.. | exact Hp].
  - reflexivity.
Qed.

(** The part of C1 that concerns the two record functions that change
    the byte total: the flush happens on the value [num_bytes] had
    before the call. *)
Lemma byte_total_change_flushes key bytes flags now pool r r1 p a :
  stats_prefix_find key pool r = (Some p, r1) ->
  deref r1 p = Some a ->
  exists a',
    deref (stats_prefix_record_byte_total_change key bytes flags now pool r) p
    = Some a'
    /\ total_byte_seconds a' = total_byte_seconds (time_weighted_flush now a)
    /\ last_update a' = now
    /\ num_bytes a' = u64 (num_bytes a + bytes).
Proof.
  intros Hf Ha. eexists.
  unfold stats_prefix_record_byte_total_change. rewrite Hf.
  split; [apply deref_store_same; exact Ha|].
  unfold time_weighted_flush.
  destruct (decide (Z.land flags PREFIX_INCR_ITEM_COUNT <> 0));
    destruct (decide (Z.land flags PREFIX_IS_OVERWRITE <> 0));
    destruct (decide (now <> last_update a)) as [Hne|Heq]; simpl;
    try (apply dec_stable in Heq);
    (split; [|split; [congruence|reflexivity]]);
    try reflexivity;
    rewrite u64_add_u64_r; reflexivity.
Qed.

Lemma removal_flushes key bytes time flags now pool r r1 p a :
  stats_prefix_find key pool r = (Some p, r1) ->
  deref r1 p = Some a ->
  exists a',
    deref (stats_prefix_record_removal key bytes time flags now pool r) p
    = Some a'
    /\ total_byte_seconds a' = total_byte_seconds (time_weighted_flush now a)
    /\ last_update a' = now
    /\ num_bytes a' = u64 (num_bytes a - bytes).
Proof.
  intros Hf Ha. eexists.
  unfold stats_prefix_record_removal. rewrite Hf.
  split; [apply deref_store_same; exact Ha|].
  unfold time_weighted_flush.
  destruct (decide (Z.land flags UNLINK_IS_EVICT <> 0));
    [|destruct (decide (Z.land flags UNLINK_IS_EXPIRED <> 0))];
    simpl;
    (destruct (decide (now <> last_update a)) as [Hne|Heq]; simpl;
     try (apply dec_stable in Heq);
     (split; [|split; [congruence|reflexivity]]);
     try reflexivity;
     rewrite u64_add_u64_r; reflexivity).
Qed.

End RecordFacts.

(** ** The walk of the dump over the table *)

Section DumpWalk.
Context `{Externals}.

Lemma flat_map_agree {A B} (f g : A -> list B) l :
  (forall x, x ∈ l -> f x = g x) -> flat_map f l = flat_map g l.
Proof.
  induction l as [|x l IH]; intros Hfg; simpl; [reflexivity|].
  rewrite Hfg by apply list_elem_of_here.
  rewrite IH; [reflexivity|]. intros y Hy. apply Hfg. now apply list_elem_of_further.
Qed.

Lemma dump_chain_spec now size pfs out :
  dump_chain now size pfs out
  = (map (dump_flush now) pfs,
     foldl (append_line size) out (map (dump_flush now) pfs)).
Proof.
  revert out. induction pfs as [|p next IH]; intros out; simpl; [reflexivity|].
  rewrite IH. reflexivity.
Qed.

(** The outer loop over any list of distinct indices. *)
Lemma dump_table_loop now size (indices : list nat) :
  NoDup indices ->
  forall table out,
    let result :=
      foldl
        (fun st i =>
           let '(pfs, out') := dump_chain now size (fst st i) (snd st) in
           (<[i := pfs]> (fst st), out'))
        (table, out) indices in
    (forall i, i ∈ indices -> fst result i = map (dump_flush now) (table i))
    /\ (forall i, i ∉ indices -> fst result i = table i)
    /\ snd result
       = foldl (append_line size) out
           (flat_map (fun i => map (dump_flush now) (table i)) indices).
Proof.
  induction 1 as [|i rest Hi Hnd IH]; intros table out; simpl.
  - split; [intros i Hi; now apply elem_of_nil in Hi|]. split; reflexivity.
  - rewrite dump_chain_spec.
    specialize (IH (<[i := map (dump_flush now) (table i)]> table)
                  (foldl (append_line size) out (map (dump_flush now) (table i)))).
    simpl in IH. destruct IH as (Hin & Hout & Hbuf).
    split; [|split].
    + intros j Hj. apply elem_of_cons in Hj as [->|Hj].
      * rewrite Hout by assumption. apply fn_lookup_insert.
      * rewrite Hin by assumption. rewrite fn_lookup_insert_ne; [reflexivity|].
        intros ->. contradiction.
    + intros j Hj. apply not_elem_of_cons in Hj as [Hne Hj].
      rewrite Hout by assumption. now rewrite fn_lookup_insert_ne.
    + rewrite Hbuf, foldl_app. f_equal.
      apply flat_map_agree. intros j Hj.
      rewrite fn_lookup_insert_ne; [reflexivity|].
      intros ->. contradiction.
Qed.

Lemma dump_table_spec now size table out :
  (forall i, (i < Z.to_nat PREFIX_HASH_SIZE)%nat ->
     fst (dump_table now size table out) i = map (dump_flush now) (table i))
  /\ (forall i, (Z.to_nat PREFIX_HASH_SIZE <= i)%nat ->
        fst (dump_table now size table out) i = table i)
  /\ snd (dump_table now size table out)
     = foldl (append_line size) out
         (flat_map (fun i => map (dump_flush now) (table i))
            (seq 0 (Z.to_nat PREFIX_HASH_SIZE))).
Proof.
  destruct (dump_table_loop now size (seq 0 (Z.to_nat PREFIX_HASH_SIZE))
              (NoDup_seq _ _) table out) as (Hin & Hout & Hbuf).
  split; [|split].
  - intros i Hi. apply Hin. apply elem_of_seq. lia.
  - intros i Hi. apply Hout. rewrite elem_of_seq. lia.
  - exact Hbuf.
Qed.

Lemma flat_map_map_chain {A B} (g : A -> B) (t : nat -> list A) indices :
  flat_map (fun i => map g (t i)) indices = map g (flat_map t indices).
Proof.
  induction indices as [|i rest IH]; simpl; [reflexivity|].
  now rewrite map_app, IH.
Qed.

Lemma chain_get_map g pfs k :
  chain_get (map g pfs) k = g <$> chain_get pfs k.
Proof.
  induction pfs as [|p next IH]; simpl; [reflexivity|].
  rewrite length_map. destruct (decide (k = length next)); [reflexivity|exact IH].
Qed.

(** What a successful dump leaves behind. *)
Lemma dump_registry_eq now r :
  snd (stats_prefix_dump now true r)
  = mkRegistry (fst (dump_table now (dump_size r) (prefix_stats r) ([], 0)))
      (num_prefixes r) (total_prefix_size r) (dump_flush now (wildcard r)).
Proof.
  unfold stats_prefix_dump. simpl negb. cbv iota.
  destruct (dump_table now (dump_size r) (prefix_stats r) ([], 0)) as [table out].
  reflexivity.
Qed.

Lemma dump_registry now r :
  let r' := snd (stats_prefix_dump now true r) in
  (forall i, (i < Z.to_nat PREFIX_HASH_SIZE)%nat ->
     bucket r' i = map (dump_flush now) (bucket r i))
  /\ (forall i, (Z.to_nat PREFIX_HASH_SIZE <= i)%nat -> bucket r' i = bucket r i)
  /\ wildcard r' = dump_flush now (wildcard r)
  /\ num_prefixes r' = num_prefixes r
  /\ total_prefix_size r' = total_prefix_size r
  /\ chained r' = map (dump_flush now) (chained r).
Proof.
  intros r'. subst r'. rewrite dump_registry_eq.
  destruct (dump_table_spec now (dump_size r) (prefix_stats r) ([], 0))
    as (Hin & Hout & _).
  unfold bucket, chained. cbn [prefix_stats wildcard num_prefixes total_prefix_size].
  split; [exact Hin|]. split; [exact Hout|].
  split; [reflexivity|]. split; [reflexivity|]. split; [reflexivity|].
  rewrite <- flat_map_map_chain.
  apply flat_map_agree. intros i Hi. apply Hin.
  apply elem_of_seq in Hi. lia.
Qed.

Lemma dump_deref now r p a :
  in_table p ->
  deref r p = Some a ->
  deref (snd (stats_prefix_dump now true r)) p = Some (dump_flush now a).
Proof.
  destruct (dump_registry now r) as (Hin & _ & Hw & _).
  destruct p as [|h k]; unfold deref, in_table.
  - intros _ [= <-]. now rewrite Hw.
  - intros Hh Ha. rewrite Hin by assumption.
    rewrite chain_get_map. now rewrite Ha.
Qed.

End DumpWalk.

(** ** Byte-seconds *)

Section ByteSeconds.
Context `{Externals}.

(** On a 64-bit [total_byte_seconds], the two statements of the dump,
    which are not guarded by a test of the clock, are the flush of the
    design. *)
Lemma dump_flush_is_flush now a :
  0 <= total_byte_seconds a < 2 ^ 64 ->
  dump_flush now a = time_weighted_flush now a.
Proof.
  intros Htbs. unfold dump_flush, time_weighted_flush.
  rewrite u64_add_u64_r.
  destruct (decide (now <> last_update a)) as [Hne|Heq]; [reflexivity|].
  apply dec_stable in Heq. subst now.
  replace (last_update a - last_update a) with 0 by lia.
  change (rel_time 0) with 0.
  rewrite Z.mul_0_r, Z.add_0_r, u64_small by lia.
  destruct a; reflexivity.
Qed.

Lemma dump_flush_elapsed t k a :
  0 <= k < 2 ^ 32 ->
  last_update a = t ->
  num_bytes (dump_flush (rel_time (t + k)) a) = num_bytes a
  /\ total_byte_seconds (dump_flush (rel_time (t + k)) a)
     = u64 (total_byte_seconds a + num_bytes a * k).
Proof.
  intros Hk Hlast. split; [reflexivity|].
  unfold dump_flush. cbn [total_byte_seconds set_last_update
    set_total_byte_seconds].
  rewrite Hlast, rel_time_elapsed by assumption. apply u64_add_u64_r.
Qed.

Lemma dump_deref_inv now r p a1 :
  in_table p ->
  deref (snd (stats_prefix_dump now true r)) p = Some a1 ->
  exists a, deref r p = Some a /\ a1 = dump_flush now a.
Proof.
  destruct (dump_registry now r) as (Hin & _ & Hw & _).
  destruct p as [|h k]; unfold deref, in_table.
  - intros _. rewrite Hw. intros [= <-].
    exists (wildcard r). split; reflexivity.
  - intros Hh. rewrite Hin by assumption. rewrite chain_get_map.
    destruct (chain_get (bucket r h) k) as [a|]; [|discriminate].
    intros [= <-]. exists a. split; reflexivity.
Qed.

(** C1.  The flush of the design, [time_weighted_flush], reads
    [num_bytes] without changing it and, when [now] differs from
    [last_update], adds [num_bytes * (now - last_update)] to the 64-bit
    [total_byte_seconds] and sets [last_update] to [now]; the difference
    is taken on [rel_time_t], and is the plain difference when the clock
    has not run backwards.  [stats_prefix_record_byte_total_change] and
    [stats_prefix_record_removal] perform it on the accumulator they
    resolve, with the value [num_bytes] had before the call, and only
    then add or subtract the bytes; a successful dump performs it on every
    accumulator of the table and on the wildcard.  Consequently, between
    two dumps with no call in between and [k] ticks of the clock apart,
    every accumulator keeps its [num_bytes = b] and its
    [total_byte_seconds] grows by [b * k], on 64 bits, and exactly so when
    the 64-bit value does not overflow. *)
Theorem byte_seconds_accumulate :
  (forall now a,
     num_bytes (time_weighted_flush now a) = num_bytes a
     /\ last_update (time_weighted_flush now a) = now
     /\ total_byte_seconds (time_weighted_flush now a)
        = (if decide (now = last_update a) then total_byte_seconds a
           else u64 (total_byte_seconds a
                     + num_bytes a * rel_time (now - last_update a)))
     /\ (0 <= now - last_update a < 2 ^ 32 ->
         rel_time (now - last_update a) = now - last_update a))
  /\ (forall key bytes flags now pool r r1 p a,
        stats_prefix_find key pool r = (Some p, r1) ->
        deref r1 p = Some a ->
        exists a',
          deref (stats_prefix_record_byte_total_change key bytes flags now
                   pool r) p = Some a'
          /\ total_byte_seconds a'
             = total_byte_seconds (time_weighted_flush now a)
          /\ last_update a' = now
          /\ num_bytes a' = u64 (num_bytes a + bytes))
  /\ (forall key bytes time flags now pool r r1 p a,
        stats_prefix_find key pool r = (Some p, r1) ->
        deref r1 p = Some a ->
        exists a',
          deref (stats_prefix_record_removal key bytes time flags now
                   pool r) p = Some a'
          /\ total_byte_seconds a'
             = total_byte_seconds (time_weighted_flush now a)
          /\ last_update a' = now
          /\ num_bytes a' = u64 (num_bytes a - bytes))
  /\ (forall now r p a,
        in_table p ->
        deref r p = Some a ->
        0 <= total_byte_seconds a < 2 ^ 64 ->
        deref (snd (stats_prefix_dump now true r)) p
        = Some (time_weighted_flush now a))
  /\ (forall t k r p a1,
        0 <= k < 2 ^ 32 ->
        in_table p ->
        deref (snd (stats_prefix_dump t true r)) p = Some a1 ->
        exists a2,
          deref
            (snd (stats_prefix_dump (rel_time (t + k)) true
                    (snd (stats_prefix_dump t true r)))) p = Some a2
          /\ num_bytes a2 = num_bytes a1
          /\ total_byte_seconds a2
             = u64 (total_byte_seconds a1 + num_bytes a1 * k)
          /\ (0 <= total_byte_seconds a1 + num_bytes a1 * k < 2 ^ 64 ->
              total_byte_seconds a2
              = total_byte_seconds a1 + num_bytes a1 * k)).
Proof.
  split; [|split; [|split; [|split]]].
  - intros now a. unfold time_weighted_flush.
    destruct (decide (now <> last_update a)) as [Hne|Heq].
    + rewrite decide_False by congruence.
      split; [reflexivity|]. split; [reflexivity|]. split; [reflexivity|].
      intros Hnow. now apply u32_small.
    + apply dec_stable in Heq. rewrite decide_True by assumption.
      split; [reflexivity|]. split; [congruence|]. split; [reflexivity|].
      intros Hnow. now apply u32_small.
  - intros. eapply byte_total_change_flushes; eassumption.
  - intros. eapply removal_flushes; eassumption.
  - intros now r p a Hp Ha Htbs.
    rewrite <- dump_flush_is_flush by assumption. now apply dump_deref.
  - intros t k r p a1 Hk Hp Ha1.
    destruct (dump_deref_inv _ _ _ _ Hp Ha1) as (a & _ & ->).
    eexists. split; [apply dump_deref; [exact Hp | exact Ha1]|].
    assert (Hlast : last_update (dump_flush t a) = t) by reflexivity.
    destruct (dump_flush_elapsed t k (dump_flush t a) Hk Hlast) as [Hnb Htbs].
    split; [exact Hnb|]. split; [exact Htbs|].
    intros Hfit. rewrite Htbs. now apply u64_small.
Qed.

End ByteSeconds.

(** ** Formatted output *)

Section PrintfFacts.
Context `{Externals}.

Lemma digit_value_digit d : 0 <= d < 10 -> digit_value (digit d) = d.
Proof.
  intros Hd. unfold digit_value, digit.
  rewrite nat_ascii_embedding by lia. lia.
Qed.

Lemma utoa_loop_acc fuel n acc :
  utoa_loop fuel n acc = utoa_loop fuel n [] ++ acc.
Proof.
  revert n acc. induction fuel as [|fuel IH]; intros n acc; simpl; [reflexivity|].
  destruct (n / 10 =? 0); [reflexivity|].
  rewrite IH. rewrite (IH _ [_]). now rewrite <- app_assoc.
Qed.

(** The loop does not run out of fuel: the digits denote the number. *)
Lemma utoa_loop_value fuel n :
  0 <= n < 2 ^ Z.of_nat fuel -> decimal_value (utoa_loop fuel n []) = n.
Proof.
  revert n. induction fuel as [|fuel IH]; intros n Hn.
  - simpl in *. unfold decimal_value. simpl. lia.
  - simpl utoa_loop.
    assert (Hmod : 0 <= n mod 10 < 10) by (apply Z.mod_pos_bound; lia).
    destruct (n / 10 =? 0) eqn:Hq.
    + apply Z.eqb_eq in Hq. unfold decimal_value. simpl.
      rewrite digit_value_digit by assumption.
      pose proof (Z.div_mod n 10). lia.
    + rewrite utoa_loop_acc. unfold decimal_value. rewrite foldl_app. simpl.
      fold (decimal_value (utoa_loop fuel (n / 10) [])).
      assert (Hdiv : 0 <= n / 10 < 2 ^ Z.of_nat fuel).
      { split; [apply Z.div_pos; lia|].
        apply Z.div_lt_upper_bound; [lia|].
        rewrite Nat2Z.inj_succ, Z.pow_succ_r in Hn by lia. lia. }
      rewrite (IH _ Hdiv), digit_value_digit by assumption.
      pose proof (Z.div_mod n 10). lia.
Qed.

Lemma utoa_value n : 0 <= n -> decimal_value (utoa n) = n.
Proof.
  intros Hn. unfold utoa. apply utoa_loop_value. split; [assumption|].
  destruct (decide (n = 0)) as [->|Hne]; [reflexivity|].
  rewrite Nat2Z.inj_succ, Z2Nat.id by apply Z.log2_nonneg.
  apply Z.log2_spec. lia.
Qed.

(** A number below [10^k] prints as at most [k] digits. *)
Lemma utoa_loop_length fuel n acc (k : nat) :
  0 <= n < 10 ^ Z.of_nat (S k) ->
  (length (utoa_loop fuel n acc) <= S k + length acc)%nat.
Proof.
  revert n acc k. induction fuel as [|fuel IH]; intros n acc k Hn; simpl; [lia|].
  destruct (n / 10 =? 0) eqn:Hq; simpl; [lia|].
  apply Z.eqb_neq in Hq.
  destruct k as [|k].
  - exfalso. apply Hq. apply Z.div_small. simpl in Hn. lia.
  - etransitivity; [apply (IH _ _ k)|simpl; lia].
    split; [apply Z.div_pos; lia|].
    apply Z.div_lt_upper_bound; [lia|].
    rewrite (Nat2Z.inj_succ (S k)), Z.pow_succ_r in Hn by lia. lia.
Qed.

Lemma utoa_u64 n : 0 <= n < 2 ^ 64 -> (length (utoa n) <= 20)%nat.
Proof.
  intros Hn. unfold utoa.
  pose proof (utoa_loop_length (S (Z.to_nat (Z.log2 n))) n [] 19) as Hlen.
  simpl length in Hlen. rewrite Nat.add_0_r in Hlen. apply Hlen.
  change (10 ^ Z.of_nat 20) with 100000000000000000000. lia.
Qed.

Lemma utoa_u32 n : 0 <= n < 2 ^ 32 -> (length (utoa n) <= 10)%nat.
Proof.
  intros Hn. unfold utoa.
  pose proof (utoa_loop_length (S (Z.to_nat (Z.log2 n))) n [] 9) as Hlen.
  simpl length in Hlen. rewrite Nat.add_0_r in Hlen. apply Hlen.
  change (10 ^ Z.of_nat 10) with 10000000000. lia.
Qed.

Lemma c_string_length s : (length (c_string s) <= length s)%nat.
Proof.
  induction s as [|c rest IH]; simpl; [lia|].
  destruct (decide (c = NUL)); simpl; lia.
Qed.

(** With the length of the stored prefix for a precision, a prefix is
    printed up to its first NUL. *)
Lemma precision_string_prefix a :
  prefix_len a = Z.of_nat (length (prefix a)) ->
  prefix_len a < 2 ^ 32 ->
  precision_string (int (u32 (prefix_len a))) (prefix a) = c_string (prefix a).
Proof.
  intros Hlen Hsmall. unfold precision_string.
  destruct (int (u32 (prefix_len a)) <? 0) eqn:Hneg; [reflexivity|].
  apply Z.ltb_ge in Hneg.
  rewrite u32_small in * by lia.
  assert (Hint : int (prefix_len a) = prefix_len a).
  { destruct (decide (prefix_len a <= INT_MAX)) as [Hle|Hgt].
    - apply int_small. unfold INT_MAX in *. lia.
    - exfalso. unfold int, INT_MAX in *.
      rewrite <- (Z.mod_unique (prefix_len a + 2 ^ 31) (2 ^ 32) 1
                    (prefix_len a - 2 ^ 31)) in Hneg; lia. }
  rewrite Hint. apply take_ge.
  pose proof (c_string_length (prefix a)). lia.
Qed.

Lemma vformat_dump_line n name a :
  vformat STATS_PREFIX_DUMP_FORMAT (dump_args n name a)
  = dump_line (precision_string (int n) name) a.
Proof. reflexivity. Qed.

Lemma dump_line_length name a :
  well_typed a ->
  (length (dump_line name a) <= 288 + length name)%nat.
Proof.
  intros (_ & Hi & Hg & Hh & Hs & Hd & He & Ho & Hx & Hb & Ht & Hbs).
  apply utoa_u32 in Hi.
  apply utoa_u64 in Hg, Hh, Hs, Hd, He, Ho, Hx, Hb, Ht, Hbs.
  unfold dump_line. rewrite !length_app.
  cbn [length list_ascii_of_string]. lia.
Qed.

Lemma string_length_append s1 s2 :
  String.length (s1 +:+ s2) = (String.length s1 + String.length s2)%nat.
Proof.
  induction s1 as [|c s1 IH]; [reflexivity|].
  change (String c s1 +:+ s2) with (String c (s1 +:+ s2)).
  simpl. now rewrite IH.
Qed.

End PrintfFacts.

(** ** Writing into the buffer *)

Section BufferFacts.
Context `{Externals}.

(** When the text, the reserved bytes and the closing NUL fit behind
    [offset], the text is stored whole. *)
Lemma append_to_buffer_fits buf size offset reserved fmt ap :
  offset = Z.of_nat (length buf) ->
  offset + Z.of_nat (length (vformat fmt ap)) + reserved + 1 <= size ->
  append_to_buffer buf size offset reserved fmt ap
  = (buf ++ vformat fmt ap, offset + Z.of_nat (length (vformat fmt ap))).
Proof.
  intros Hoff Hfit. unfold append_to_buffer.
  rewrite (take_ge (vformat fmt ap)) by lia.
  rewrite (take_ge buf) by lia. reflexivity.
Qed.

Lemma append_lines_fit size pfs out :
  snd out = Z.of_nat (length (fst out)) ->
  snd out + Z.of_nat (length (flat_map chain_line pfs))
  + sizeof_string terminator + 1 <= size ->
  foldl (append_line size) out pfs
  = (fst out ++ flat_map chain_line pfs,
     snd out + Z.of_nat (length (flat_map chain_line pfs))).
Proof.
  revert out. induction pfs as [|a pfs IH]; intros [buf offset] Hoff Hfit;
    cbn [flat_map foldl fst snd] in *.
  - rewrite app_nil_r. cbn [length]. rewrite Z.add_0_r. reflexivity.
  - rewrite length_app, Nat2Z.inj_add in Hfit.
    assert (Hline : append_line size (buf, offset) a
                    = (buf ++ chain_line a,
                       offset + Z.of_nat (length (chain_line a)))).
    { unfold append_line. cbn [fst snd].
      rewrite append_to_buffer_fits; rewrite ?vformat_dump_line;
        fold (chain_line a); [reflexivity | assumption | lia]. }
    rewrite Hline, IH; cbn [fst snd].
    + rewrite <- app_assoc, length_app, Nat2Z.inj_add. f_equal. lia.
    + rewrite length_app, Nat2Z.inj_add. lia.
    + lia.
Qed.

Lemma prefix_bytes_app l1 l2 :
  prefix_bytes (l1 ++ l2) = prefix_bytes l1 + prefix_bytes l2.
Proof.
  induction l1 as [|a l1 IH]; simpl; [reflexivity|]. rewrite IH. lia.
Qed.

Lemma prefix_bytes_nonneg pfs : Forall well_typed pfs -> 0 <= prefix_bytes pfs.
Proof.
  induction 1 as [|a pfs (Hlen & _) _ IH]; simpl; lia.
Qed.

(** All the lines of well-typed nodes together take no more than the
    prefix bytes and 288 bytes a node. *)
Lemma chain_lines_length pfs :
  Forall well_typed pfs ->
  Z.of_nat (length (flat_map chain_line pfs))
  <= prefix_bytes pfs + 288 * Z.of_nat (length pfs).
Proof.
  induction 1 as [|a pfs Ha _ IH]; [simpl; lia|].
  cbn [flat_map]. unfold prefix_bytes in *. cbn [foldr length].
  rewrite length_app. unfold chain_line at 1.
  pose proof (dump_line_length
                (precision_string (int (u32 (prefix_len a))) (prefix a)) a Ha)
    as Hline.
  assert (Hname : (length (precision_string (int (u32 (prefix_len a)))
                             (prefix a)) <= length (prefix a))%nat).
  { unfold precision_string. pose proof (c_string_length (prefix a)).
    destruct (_ <? 0); [assumption|]. rewrite length_take. lia. }
  destruct Ha as (Hlen & _). lia.
Qed.

End BufferFacts.

(** ** The table as a whole *)

Section TableFacts.
Context `{Externals}.
Implicit Types (t : nat -> list PREFIX_STATS).

(** Replacing one chain replaces one segment of the walk. *)
Lemma flat_map_insert t h c n :
  (h < n)%nat ->
  exists l1 l2,
    flat_map t (seq 0 n) = l1 ++ t h ++ l2
    /\ flat_map (<[h := c]> t) (seq 0 n) = l1 ++ c ++ l2.
Proof.
  intros Hh.
  replace n with (h + S (n - S h))%nat by lia.
  rewrite seq_app. simpl seq.
  exists (flat_map t (seq 0 h)), (flat_map t (seq (S h) (n - S h))).
  rewrite !flat_map_app. simpl. rewrite fn_lookup_insert.
  split; [reflexivity|]. f_equal; [|f_equal]; apply flat_map_agree;
    intros i Hi; apply elem_of_seq in Hi;
    (rewrite fn_lookup_insert_ne; [reflexivity | lia]).
Qed.

Lemma flat_map_insert_outside t h c n :
  (n <= h)%nat -> flat_map (<[h := c]> t) (seq 0 n) = flat_map t (seq 0 n).
Proof.
  intros Hh. apply flat_map_agree. intros i Hi. apply elem_of_seq in Hi.
  rewrite fn_lookup_insert_ne; [reflexivity | lia].
Qed.

Lemma chain_set_Forall (P : PREFIX_STATS -> Prop) f k pfs :
  (forall a, P a -> P (f a)) -> Forall P pfs -> Forall P (chain_set f k pfs).
Proof.
  intros Hf. induction 1 as [|a pfs Ha Hrest IH]; simpl; [constructor|].
  destruct (decide (k = length pfs)); constructor; auto.
Qed.

Lemma chain_set_prefix_bytes f k pfs :
  (forall a, prefix_len (f a) = prefix_len a) ->
  prefix_bytes (chain_set f k pfs) = prefix_bytes pfs.
Proof.
  intros Hf. induction pfs as [|a pfs IH]; simpl; [reflexivity|].
  destruct (decide (k = length pfs)); simpl; [rewrite Hf|rewrite IH]; reflexivity.
Qed.

(** A store of a function that keeps [prefix_len] keeps the shape of the
    table, and keeps what it keeps of the nodes. *)
Lemma store_chained (P : PREFIX_STATS -> Prop) p f r :
  (forall a, prefix_len (f a) = prefix_len a) ->
  length (chained (store p f r)) = length (chained r)
  /\ prefix_bytes (chained (store p f r)) = prefix_bytes (chained r)
  /\ ((forall a, P a -> P (f a)) ->
      Forall P (chained r) -> Forall P (chained (store p f r))).
Proof.
  intros Hlen. destruct p as [|h k]; unfold chained;
    cbn [store prefix_stats].
  { split; [reflexivity|]. split; [reflexivity|]. auto. }
  destruct (decide (h < Z.to_nat PREFIX_HASH_SIZE)%nat) as [Hh|Hh].
  - destruct (flat_map_insert (prefix_stats r) h
                (chain_set f k (bucket r h)) _ Hh) as (l1 & l2 & E1 & E2).
    rewrite E1, E2. unfold bucket.
    rewrite !length_app, !prefix_bytes_app, chain_set_length,
      chain_set_prefix_bytes by assumption.
    split; [reflexivity|]. split; [reflexivity|].
    intros Hf. rewrite !Forall_app. intros (? & ? & ?).
    split; [assumption|]. split; [now apply chain_set_Forall | assumption].
  - rewrite flat_map_insert_outside by lia.
    split; [reflexivity|]. split; [reflexivity|]. auto.
Qed.

(** Linking a new node in adds it to the walk. *)
Lemma created_chained (P : PREFIX_STATS -> Prop) key r w np tps :
  let r1 :=
    mkRegistry
      (<[key_hashval key := new_node key :: bucket r (key_hashval key)]>
         (prefix_stats r)) np tps w in
  length (chained r1) = S (length (chained r))
  /\ prefix_bytes (chained r1)
     = prefix_bytes (chained r) + Z.of_nat (delimiter_scan key)
  /\ (P (new_node key) -> Forall P (chained r) -> Forall P (chained r1)).
Proof.
  intros r1. unfold r1, chained. cbn [prefix_stats].
  destruct (flat_map_insert (prefix_stats r) (key_hashval key)
              (new_node key :: bucket r (key_hashval key)) _
              (key_hashval_lt key)) as (l1 & l2 & E1 & E2).
  rewrite E1, E2. unfold bucket.
  rewrite !length_app, !prefix_bytes_app.
  change (new_node key :: prefix_stats r (key_hashval key))
    with ([new_node key] ++ prefix_stats r (key_hashval key)).
  rewrite !length_app, !prefix_bytes_app.
  change (prefix_bytes [new_node key]) with (Z.of_nat (delimiter_scan key) + 0).
  change (length [new_node key]) with 1%nat.
  split; [lia|]. split; [lia|].
  intros Hnew. rewrite !Forall_app. intros (? & ? & ?).
  split; [assumption|]. split; [|assumption].
  split; [|assumption]. now repeat constructor.
Qed.

Lemma new_node_well_typed key : well_typed (new_node key).
Proof.
  unfold well_typed, new_node. simpl.
  rewrite key_prefix_length. repeat split; lia.
Qed.

Lemma clear_table t indices :
  forall i,
    foldl (fun ps i => <[i := []]> ps) t indices i
    = if decide (i ∈ indices) then [] else t i.
Proof.
  revert t. induction indices as [|j rest IH]; intros t i; cbn [foldl].
  - rewrite decide_False; [reflexivity | apply not_elem_of_nil].
  - rewrite IH. destruct (decide (i ∈ rest)) as [Hin|Hout].
    + rewrite decide_True; [reflexivity | now apply elem_of_cons; right].
    + destruct (decide (i = j)) as [->|Hne].
      * rewrite fn_lookup_insert, decide_True; [reflexivity|].
        apply elem_of_cons. now left.
      * rewrite fn_lookup_insert_ne by congruence.
        rewrite decide_False; [reflexivity|].
        rewrite elem_of_cons. tauto.
Qed.

Lemma flat_map_empty {A B} (f : A -> list B) l :
  (forall x, x ∈ l -> f x = []) -> flat_map f l = [].
Proof.
  induction l as [|x l IH]; intros Hf; simpl; [reflexivity|].
  rewrite Hf by apply list_elem_of_here. simpl. apply IH.
  intros y Hy. apply Hf. now apply list_elem_of_further.
Qed.

Lemma clear_chained r : chained (stats_prefix_clear r) = [].
Proof.
  unfold chained, stats_prefix_clear. cbn [prefix_stats].
  apply flat_map_empty. intros i Hi.
  rewrite clear_table. now rewrite decide_True.
Qed.

End TableFacts.

(** ** What every public operation preserves *)

Section Invariants.
Context `{Externals}.

(** The effect of [stats_prefix_find] on the table: none, or one node
    more, counted in both counters. *)
Lemma stats_prefix_find_shape key pool r o r1 :
  stats_prefix_find key pool r = (o, r1) ->
  wildcard r1 = wildcard r
  /\ ((r1 = r /\ forall p, o = Some p -> is_Some (deref r p))
      \/ (length (chained r1) = S (length (chained r))
          /\ prefix_bytes (chained r1)
             = prefix_bytes (chained r) + Z.of_nat (delimiter_scan key)
          /\ num_prefixes r1 = int (num_prefixes r + 1)
          /\ total_prefix_size r1
             = int (total_prefix_size r + Z.of_nat (delimiter_scan key))
          /\ (Forall well_typed (chained r) -> Forall well_typed (chained r1))
          /\ exists p, o = Some p /\ deref r p = None)).
Proof.
  intros Hf.
  destruct (stats_prefix_find_cases key pool r)
    as [[_ E]|[(_ & k & Hk & E)|[(_ & Hn & _ & E)|(_ & _ & _ & E)]]];
    rewrite E in Hf; inversion Hf; subst; clear Hf E.
  - split; [reflexivity|]. left. split; [reflexivity|].
    intros p [= <-]. simpl. eauto.
  - split; [reflexivity|]. left. split; [reflexivity|].
    intros p [= <-]. simpl.
    apply chain_find_Some in Hk as (a & Ha & _). eauto.
  - split; [reflexivity|]. right.
    destruct (created_chained well_typed key r (wildcard r)
                (int (num_prefixes r + 1))
                (int (total_prefix_size r + Z.of_nat (delimiter_scan key))))
      as (Hlen & Hbytes & Hall).
    split; [exact Hlen|]. split; [exact Hbytes|].
    split; [reflexivity|]. split; [reflexivity|].
    split; [apply Hall, new_node_well_typed|].
    eexists. split; [reflexivity|]. simpl.
    destruct (chain_get (bucket r (key_hashval key))
                (length (bucket r (key_hashval key)))) as [a|] eqn:Ha;
      [|reflexivity].
    apply chain_get_rank in Ha. lia.
  - split; [reflexivity|]. left. split; [reflexivity|]. discriminate.
Qed.

Lemma stats_prefix_find_ok key pool r o r1 :
  stats_prefix_find key pool r = (o, r1) ->
  (counters_agree r -> within_int r1 -> counters_agree r1)
  /\ (registry_ok r -> registry_ok r1).
Proof.
  intros Hf.
  destruct (stats_prefix_find_shape _ _ _ _ _ Hf)
    as (Hw & [[-> _]|(Hlen & Hbytes & Hnp & Htps & Hall & _)]);
    [tauto|].
  assert (Hstep : counters_agree r -> within_int r1 -> counters_agree r1).
  { intros [Hc1 Hc2] [Hi1 Hi2]. split.
    - rewrite Hnp, Hc1, Hlen, int_small; unfold INT_MAX in *; lia.
    - rewrite Htps, Hc2, Hbytes, int_small; unfold INT_MAX in *; lia. }
  split; [exact Hstep|].
  intros (Hwt & Hww & Hcount).
  split; [now apply Hall|]. split; [now rewrite Hw|].
  intros Hint. apply Hstep; [|exact Hint]. apply Hcount.
  pose proof (prefix_bytes_nonneg _ Hwt).
  destruct Hint as [Hi1 Hi2]. split; unfold INT_MAX in *; lia.
Qed.

Lemma store_ok p f r :
  (forall a, prefix_len (f a) = prefix_len a) ->
  (forall a, well_typed a -> well_typed (f a)) ->
  (counters_agree r -> counters_agree (store p f r))
  /\ (within_int (store p f r) -> within_int r)
  /\ (registry_ok r -> registry_ok (store p f r)).
Proof.
  intros Hlen Hwt.
  destruct (store_chained well_typed p f r Hlen) as (El & Eb & Hall).
  destruct (store_counters r p f) as [En Et].
  assert (Hc : counters_agree r -> counters_agree (store p f r)).
  { unfold counters_agree. rewrite En, Et, El, Eb. tauto. }
  assert (Hi : within_int (store p f r) -> within_int r).
  { unfold within_int. rewrite El, Eb. tauto. }
  split; [exact Hc|]. split; [exact Hi|].
  intros (Hall' & Hw & Hcount).
  split; [now apply Hall|].
  split; [destruct p; simpl; auto|].
  intros Hint. apply Hc, Hcount, Hi, Hint.
Qed.

(** The shape common to the five record functions. *)
Lemma record_ok key pool f r :
  (forall a, prefix_len (f a) = prefix_len a) ->
  (forall a, well_typed a -> well_typed (f a)) ->
  let r' :=
    match stats_prefix_find key pool r with
    | (Some p, r1) => store p f r1
    | (None, r1) => r1
    end in
  (counters_agree r -> within_int r' -> counters_agree r')
  /\ (registry_ok r -> registry_ok r').
Proof.
  intros Hlen Hwt.
  destruct (stats_prefix_find key pool r) as [o r1] eqn:Hf.
  destruct (stats_prefix_find_ok _ _ _ _ _ Hf) as [Hc Hok].
  destruct o as [p|]; simpl; [|tauto].
  destruct (store_ok p f r1 Hlen Hwt) as (Hsc & Hsi & Hsok). tauto.
Qed.

Ltac well_typed_update :=
  let a := fresh "a" in
  intros a; unfold well_typed;
  intros (? & ? & ? & ? & ? & ? & ? & ? & ? & ? & ? & ?);
  cbv zeta; repeat case_decide; cbn;
  repeat split; try assumption; try lia;
  try (apply (proj1 (u64_range _))); try (apply (proj2 (u64_range _)));
  try (apply (proj1 (u32_range _))); try (apply (proj2 (u32_range _))).

Lemma dump_flush_well_typed now a : well_typed a -> well_typed (dump_flush now a).
Proof. revert a. unfold dump_flush. well_typed_update. Qed.

Lemma prefix_bytes_map g pfs :
  (forall a, prefix_len (g a) = prefix_len a) ->
  prefix_bytes (map g pfs) = prefix_bytes pfs.
Proof.
  intros Hg. induction pfs as [|a pfs IH]; simpl; [reflexivity|].
  now rewrite Hg, IH.
Qed.

Lemma dump_ok now malloc_ok r :
  let r' := snd (stats_prefix_dump now malloc_ok r) in
  (counters_agree r -> counters_agree r')
  /\ (registry_ok r -> registry_ok r').
Proof.
  destruct malloc_ok; [|simpl; tauto]. intros r'. subst r'.
  destruct (dump_registry now r) as (_ & _ & Hw & Hn & Ht & Hch).
  assert (Hc : counters_agree r ->
               counters_agree (snd (stats_prefix_dump now true r))).
  { unfold counters_agree. rewrite Hn, Ht, Hch, length_map, prefix_bytes_map;
      [tauto | reflexivity]. }
  split; [exact Hc|].
  intros (Hall & Hww & Hcount). split; [|split].
  - rewrite Hch. apply Forall_map.
    eapply Forall_impl; [exact Hall|]. apply dump_flush_well_typed.
  - rewrite Hw. now apply dump_flush_well_typed.
  - intros Hint. apply Hc, Hcount. revert Hint. unfold within_int.
    rewrite Hch, length_map, prefix_bytes_map; [tauto | reflexivity].
Qed.

Lemma zeroed_well_typed : well_typed zeroed.
Proof. unfold well_typed. simpl. repeat split; lia. Qed.

Lemma clear_ok r :
  counters_agree (stats_prefix_clear r) /\ registry_ok (stats_prefix_clear r).
Proof.
  assert (Hc : counters_agree (stats_prefix_clear r)).
  { unfold counters_agree. rewrite clear_chained. split; reflexivity. }
  split; [exact Hc|]. split; [|split].
  - rewrite clear_chained. constructor.
  - apply zeroed_well_typed.
  - intros _. exact Hc.
Qed.

Lemma init_ok : counters_agree stats_prefix_init /\ registry_ok stats_prefix_init.
Proof.
  assert (Hch : chained stats_prefix_init = []).
  { unfold chained. apply flat_map_empty. reflexivity. }
  assert (Hc : counters_agree stats_prefix_init).
  { unfold counters_agree. rewrite Hch. split; reflexivity. }
  split; [exact Hc|]. split; [|split].
  - rewrite Hch. constructor.
  - apply zeroed_well_typed.
  - intros _. exact Hc.
Qed.

Lemma run_ok c r :
  (counters_agree r -> within_int (run c r) -> counters_agree (run c r))
  /\ (registry_ok r -> registry_ok (run c r)).
Proof.
  destruct c; cbn [run].
  - apply record_ok; [intros a; destruct is_hit; reflexivity|].
    destruct is_hit; well_typed_update.
  - apply record_ok; [reflexivity | well_typed_update].
  - apply record_ok; [reflexivity | well_typed_update].
  - apply record_ok; [intros a; cbv zeta; repeat case_decide; reflexivity|].
    well_typed_update.
  - apply record_ok; [intros a; cbv zeta; repeat case_decide; reflexivity|].
    well_typed_update.
  - destruct (dump_ok current_time malloc_ok r). tauto.
  - destruct (clear_ok r). tauto.
Qed.

Lemma reachable_ok r : reachable r -> registry_ok r.
Proof.
  induction 1 as [|c r _ IH]; [apply init_ok | now apply run_ok].
Qed.

Lemma record_size key pool f r :
  (forall a, prefix_len (f a) = prefix_len a) ->
  let r' :=
    match stats_prefix_find key pool r with
    | (Some p, r1) => store p f r1
    | (None, r1) => r1
    end in
  (same_size r r' /\ forall p r1,
      stats_prefix_find key pool r = (Some p, r1) -> is_Some (deref r p))
  \/ (one_node_more (length (key_prefix key)) r r'
      /\ exists p r1,
           stats_prefix_find key pool r = (Some p, r1) /\ deref r p = None).
Proof.
  intros Hlen. rewrite key_prefix_length.
  destruct (stats_prefix_find key pool r) as [o r1] eqn:Hf.
  destruct (stats_prefix_find_shape _ _ _ _ _ Hf)
    as (_ & [[-> Hsome]|(El & Eb & En & Et & _ & p & -> & Hnone)]).
  - left. split; [|intros p r1 [= -> _]; now apply Hsome].
    destruct o as [p|]; simpl; [|repeat split].
    destruct (store_chained well_typed p f r Hlen) as (El & Eb & _).
    destruct (store_counters r p f) as [En Et].
    unfold same_size. tauto.
  - right. split; [|eauto]. simpl.
    destruct (store_chained well_typed p f r1 Hlen) as (El' & Eb' & _).
    destruct (store_counters r1 p f) as [En' Et'].
    unfold one_node_more. rewrite El', Eb', En', Et'. tauto.
Qed.

(** C9.  [num_prefixes] is the number of accumulators chained in the
    table and [total_prefix_size] the sum of their stored prefix lengths:
    this holds initially; every public call preserves it while the table
    still fits the two [int] counters; hence it holds of every registry
    reached that fits them.  A record function or a dump either leaves
    the table with the nodes it had and both counters as they were, or,
    precisely when the accumulator it resolves did not exist before the
    call, leaves one node more and has added one to [num_prefixes] and the
    length of the prefix to [total_prefix_size].  When
    [stats_prefix_find] returns no accumulator, after a failed
    allocation, the record function returns the registry unchanged.
    [stats_prefix_clear] empties every chain and resets both counters
    to zero. *)
Theorem counters_track_table :
  counters_agree stats_prefix_init
  /\ (forall c r,
        counters_agree r -> within_int (run c r) -> counters_agree (run c r))
  /\ (forall r, reachable r -> within_int r -> counters_agree r)
  /\ (forall c key pool r,
        call_key c = Some (key, pool) ->
        (same_size r (run c r)
         /\ forall p r1,
              stats_prefix_find key pool r = (Some p, r1) ->
              is_Some (deref r p))
        \/ (one_node_more (length (key_prefix key)) r (run c r)
            /\ exists p r1,
                 stats_prefix_find key pool r = (Some p, r1)
                 /\ deref r p = None))
  /\ (forall c r,
        c <> call_clear ->
        same_size r (run c r) \/ exists n, one_node_more n r (run c r))
  /\ (forall c key pool r r1,
        call_key c = Some (key, pool) ->
        stats_prefix_find key pool r = (None, r1) ->
        r1 = r /\ run c r = r)
  /\ (forall r,
        chained (stats_prefix_clear r) = []
        /\ (forall i, (i < Z.to_nat PREFIX_HASH_SIZE)%nat ->
              bucket (stats_prefix_clear r) i = [])
        /\ num_prefixes (stats_prefix_clear r) = 0
        /\ total_prefix_size (stats_prefix_clear r) = 0
        /\ counters_agree (stats_prefix_clear r)).
Proof.
  split; [exact (proj1 init_ok)|].
  split; [intros c r; exact (proj1 (run_ok c r))|].
  split; [intros r Hr; exact (proj2 (proj2 (reachable_ok r Hr)))|].
  split; [|split; [|split]].
  - intros c key pool r Hkey.
    destruct c; cbn [call_key] in Hkey; inversion Hkey; subst; cbn [run];
      apply record_size.
    + intros a; destruct is_hit; reflexivity.
    + reflexivity.
    + reflexivity.
    + intros a; cbv zeta; repeat case_decide; reflexivity.
    + intros a; cbv zeta; repeat case_decide; reflexivity.
  - intros c r Hc.
    assert (Hrec : forall key pool f,
               (forall a, prefix_len (f a) = prefix_len a) ->
               let r' :=
                 match stats_prefix_find key pool r with
                 | (Some p, r1) => store p f r1
                 | (None, r1) => r1
                 end in
               same_size r r' \/ exists n, one_node_more n r r').
    { intros key pool f Hlen r'.
      destruct (record_size key pool f r Hlen) as [[? _]|[? _]]; eauto. }
    destruct c; cbn [run]; try contradiction.
    + apply Hrec. intros a; destruct is_hit; reflexivity.
    + apply Hrec. reflexivity.
    + apply Hrec. reflexivity.
    + apply Hrec. intros a; cbv zeta; repeat case_decide; reflexivity.
    + apply Hrec. intros a; cbv zeta; repeat case_decide; reflexivity.
    + left. destruct malloc_ok; [|repeat split].
      destruct (dump_registry current_time r) as (_ & _ & _ & Hn & Ht & Hch).
      unfold same_size. rewrite Hn, Ht, Hch, length_map, prefix_bytes_map;
        [tauto | reflexivity].
  - intros c key pool r r1 Hkey Hf.
    destruct (record_skipped _ _ _ _ Hf) as (Hr1 & Hget & Hdel & Hset & Hbtc & Hrem).
    split; [exact Hr1|].
    destruct c; cbn [call_key] in Hkey; inversion Hkey; subst; cbn [run];
      auto.
  - intros r. split; [apply clear_chained|].
    split; [|split; [reflexivity|split; [reflexivity|exact (proj1 (clear_ok r))]]].
    intros i Hi. unfold bucket, stats_prefix_clear. cbn [prefix_stats].
    rewrite clear_table. rewrite decide_True; [reflexivity|].
    apply elem_of_seq. lia.
Qed.

End Invariants.

(** ** The report *)

Section Report.
Context `{Externals}.

Lemma format_strlen_dump :
  format_strlen STATS_PREFIX_DUMP_FORMAT
  = 104 + 10 * Z.of_nat (String.length PRINTF_INT64_MODIFIER).
Proof.
  unfold format_strlen, STATS_PREFIX_DUMP_FORMAT.
  cbn [foldr conversion_strlen]. cbn [String.length CRLF]. lia.
Qed.

Lemma dump_bound_room r :
  (String.length PRINTF_INT64_MODIFIER <= 14)%nat ->
  prefix_bytes (chained r) + 288 * (Z.of_nat (length (chained r)) + 1) + 17
  <= dump_bound r.
Proof.
  intros Hm. unfold dump_bound, sizeof_string. rewrite format_strlen_dump.
  change (Z.of_nat (String.length wildcard_name)) with 10.
  change (Z.of_nat (String.length terminator)) with 5.
  set (m := Z.of_nat (String.length PRINTF_INT64_MODIFIER)).
  assert (0 <= m <= 14) by (unfold m; lia). nia.
Qed.

(** With counters that agree with the table, a number of accumulators
    that fits the [int] counter and a bound that fits [size_t], the size
    asked of [malloc] is the bound of the design. *)
Lemma dump_size_wide r :
  counters_agree r ->
  (String.length PRINTF_INT64_MODIFIER <= 14)%nat ->
  0 <= prefix_bytes (chained r) ->
  Z.of_nat (length (chained r)) + 1 <= INT_MAX ->
  dump_bound r < 2 ^ 64 ->
  dump_size r = dump_bound r.
Proof.
  intros [Hn Ht] Hm Hpb Hn1 Hbound.
  unfold dump_size, dump_bound, format_len, sizeof_string in *.
  rewrite format_strlen_dump in *.
  rewrite !string_length_append in *. rewrite Hn, Ht.
  change (String.length "%") with 1%nat in *.
  change (String.length "u") with 1%nat in *.
  change (String.length "") with 0%nat in *.
  change (Z.of_nat (String.length wildcard_name)) with 10 in *.
  change (Z.of_nat (String.length terminator)) with 5 in *.
  set (m := String.length PRINTF_INT64_MODIFIER) in *.
  set (n := Z.of_nat (length (chained r))) in *.
  set (pb := prefix_bytes (chained r)) in *.
  unfold INT_MAX in *.
  assert (Hn0 : 0 <= n) by (unfold n; lia).
  replace (Z.of_nat (1 + (m + 1)) + 1 - (Z.of_nat 0 + 1)) with (2 + Z.of_nat m)
    by lia.
  rewrite (int_small (2 + Z.of_nat m)) by (unfold INT_MAX; lia).
  rewrite (int_small (20 - _)) by (unfold INT_MAX; lia).
  rewrite (int_small (11 * _)) by (unfold INT_MAX; lia).
  rewrite (u64_small (104 + _ + _)) by lia.
  set (B := 104 + 10 * Z.of_nat m + 11 * (20 - (2 + Z.of_nat m))) in *.
  assert (HB : 288 <= B) by (unfold B; lia).
  assert (Hprod : 288 * (n + 1) <= (n + 1) * B) by nia.
  rewrite (int_small (n + 1)) by (unfold INT_MAX; lia).
  rewrite (u64_small ((n + 1) * B)) by lia.
  rewrite (u64_small (pb + _)) by lia.
  rewrite (u64_small (pb + _ + _)) by lia.
  rewrite (u64_small (pb + _ + _ + _)) by lia.
  reflexivity.
Qed.

(** With counters that agree with the table and no wrap-around, the size
    asked of [malloc] is the bound of the design. *)
Lemma dump_size_exact r :
  counters_agree r ->
  (String.length PRINTF_INT64_MODIFIER <= 14)%nat ->
  0 <= prefix_bytes (chained r) ->
  dump_bound r <= INT_MAX ->
  dump_size r = dump_bound r
  /\ prefix_bytes (chained r) + 288 * (Z.of_nat (length (chained r)) + 1) + 17
     <= dump_bound r.
Proof.
  intros Hc Hm Hpb Hbound. pose proof (dump_bound_room r Hm) as Hroom.
  split; [|exact Hroom].
  apply dump_size_wide; try assumption; unfold INT_MAX in *; lia.
Qed.

Lemma dump_result_eq now r :
  fst (stats_prefix_dump now true r)
  = let size := dump_size r in
    let out := snd (dump_table now size (prefix_stats r) ([], 0)) in
    let w := dump_flush now (wildcard r) in
    let out :=
      if decide (num_gets w <> 0 \/ num_sets w <> 0 \/ num_deletes w <> 0)
      then
        append_to_buffer (fst out) size (snd out) (sizeof_string terminator)
          STATS_PREFIX_DUMP_FORMAT
          (dump_args (u32 (sizeof_string wildcard_name - 1))
             (list_ascii_of_string wildcard_name) w)
      else out in
    let out := append_to_buffer (fst out) size (snd out) 0 [Text terminator] [] in
    Some (fst out, int (snd out)).
Proof.
  unfold stats_prefix_dump. simpl negb. cbv iota.
  destruct (dump_table now (dump_size r) (prefix_stats r) ([], 0)) as [table out].
  reflexivity.
Qed.

Lemma prefix_len_le_bytes pfs a :
  Forall well_typed pfs -> a ∈ pfs -> prefix_len a <= prefix_bytes pfs.
Proof.
  induction 1 as [|b pfs Hb Hall IH]; intros Hin.
  - now apply elem_of_nil in Hin.
  - pose proof (prefix_bytes_nonneg _ Hall). destruct Hb as (Hlen & _).
    simpl. apply elem_of_cons in Hin as [->|Hin]; [lia|].
    specialize (IH Hin). lia.
Qed.

(** The report of a registry that is well typed, whose counters agree
    with the table, whose number of accumulators fits the [int] counter
    and whose bound is below 2^32: every line is written whole, the text
    with its closing NUL fits the buffer, and what is returned for its
    length is the length of the text narrowed to an [int]. *)
Lemma dump_complete_wide now r :
  Forall well_typed (chained r) ->
  well_typed (wildcard r) ->
  counters_agree r ->
  (String.length PRINTF_INT64_MODIFIER <= 14)%nat ->
  Z.of_nat (length (chained r)) + 1 <= INT_MAX ->
  dump_bound r < 2 ^ 32 ->
  let r' := snd (stats_prefix_dump now true r) in
  fst (stats_prefix_dump now true r)
  = Some (dump_text r', int (Z.of_nat (length (dump_text r'))))
  /\ Z.of_nat (length (dump_text r')) < dump_size r
  /\ dump_size r = dump_bound r.
Proof.
  intros Hall Hw Hc Hm Hn1 Hbound r'. subst r'.
  pose proof (prefix_bytes_nonneg _ Hall) as Hpb.
  pose proof (dump_bound_room r Hm) as Hroom.
  assert (Hsize : dump_size r = dump_bound r)
    by (apply dump_size_wide; try assumption; lia).
  destruct (dump_registry now r) as (_ & _ & Ew & _ & _ & Ech).
  remember (snd (stats_prefix_dump now true r)) as r' eqn:Er' in *. clear Er'.
  rewrite dump_result_eq.
  assert (Hall' : Forall well_typed (chained r')).
  { rewrite Ech. apply Forall_map.
    eapply Forall_impl; [exact Hall|]. apply dump_flush_well_typed. }
  assert (Hlen' : length (chained r') = length (chained r))
    by (rewrite Ech; apply length_map).
  assert (Hpb' : prefix_bytes (chained r') = prefix_bytes (chained r))
    by (rewrite Ech; apply prefix_bytes_map; reflexivity).
  assert (Hw' : well_typed (wildcard r'))
    by (rewrite Ew; now apply dump_flush_well_typed).
  pose proof (chain_lines_length _ Hall') as Hlines.
  rewrite Hlen', Hpb' in Hlines.
  (* the lines of the table *)
  assert (Htable : snd (dump_table now (dump_size r) (prefix_stats r) ([], 0))
                   = (flat_map chain_line (chained r'),
                      Z.of_nat (length (flat_map chain_line (chained r'))))).
  { destruct (dump_table_spec now (dump_size r) (prefix_stats r) ([], 0))
      as (_ & _ & Ebuf).
    rewrite Ebuf, flat_map_map_chain. fold (chained r). rewrite <- Ech.
    rewrite append_lines_fit; [reflexivity | reflexivity|].
    cbn [fst snd]. unfold sizeof_string.
    change (Z.of_nat (String.length terminator)) with 5. lia. }
  (* they are the lines of the text *)
  assert (Hsame : flat_map chain_line (chained r')
                  = flat_map (fun a => dump_line (c_string (prefix a)) a)
                      (chained r')).
  { apply flat_map_agree. intros a Ha. unfold chain_line.
    rewrite precision_string_prefix; [reflexivity| |].
    - rewrite Forall_forall in Hall'. now apply Hall'.
    - pose proof (prefix_len_le_bytes _ _ Hall' Ha). unfold INT_MAX in *. lia. }
  (* the wildcard line and the terminator *)
  pose proof (dump_line_length (list_ascii_of_string wildcard_name)
                (wildcard r') Hw') as Hwline.
  change (length (list_ascii_of_string wildcard_name)) with 10%nat in Hwline.
  cbv zeta. rewrite Htable, <- Ew, Hsame.
  unfold dump_text. cbn [fst snd].
  set (lines := flat_map (fun a => dump_line (c_string (prefix a)) a) (chained r')) in *.
  rewrite Hsame in Hlines.
  unfold sizeof_string.
  change (Z.of_nat (String.length terminator)) with 5.
  change (Z.of_nat (String.length wildcard_name)) with 10.
  set (wline := dump_line (list_ascii_of_string wildcard_name) (wildcard r'))
    in *.
  assert (Hwfmt : vformat STATS_PREFIX_DUMP_FORMAT
                    (dump_args (u32 (10 + 1 - 1))
                       (list_ascii_of_string wildcard_name) (wildcard r'))
                  = wline) by reflexivity.
  assert (Hterm : vformat [Text terminator] []
                  = list_ascii_of_string terminator) by reflexivity.
  assert (Hlterm : length (list_ascii_of_string terminator) = 5%nat)
    by reflexivity.
  rewrite Hsize. unfold INT_MAX in *. clearbody lines wline.
  destruct (decide (num_gets (wildcard r') <> 0 \/ num_sets (wildcard r') <> 0
                    \/ num_deletes (wildcard r') <> 0)) as [Hshown|Hidle].
  - rewrite (append_to_buffer_fits lines _ _ _ STATS_PREFIX_DUMP_FORMAT);
      [|reflexivity|rewrite Hwfmt; lia].
    rewrite Hwfmt. cbn [fst snd].
    rewrite append_to_buffer_fits;
      [|rewrite length_app; lia|rewrite Hterm, Hlterm; lia].
    rewrite Hterm. cbn [fst snd].
    rewrite <- app_assoc, !length_app, !Nat2Z.inj_add, Hlterm.
    split; [do 3 f_equal; lia|]. split; [lia | reflexivity].
  - cbn [fst snd]. rewrite append_to_buffer_fits;
      [|reflexivity|rewrite Hterm, Hlterm; lia].
    rewrite Hterm. cbn [fst snd app].
    rewrite !length_app, !Nat2Z.inj_add, Hlterm.
    split; [reflexivity|]. split; [lia | reflexivity].
Qed.

(** The report of a registry that is well typed, whose counters agree
    with the table, and whose bound fits an [int]: every line is written
    whole, the offset returned is the length of the text, and the text
    with its closing NUL fits the buffer. *)
Lemma dump_complete now r :
  Forall well_typed (chained r) ->
  well_typed (wildcard r) ->
  counters_agree r ->
  (String.length PRINTF_INT64_MODIFIER <= 14)%nat ->
  dump_bound r <= INT_MAX ->
  let r' := snd (stats_prefix_dump now true r) in
  fst (stats_prefix_dump now true r)
  = Some (dump_text r', Z.of_nat (length (dump_text r')))
  /\ Z.of_nat (length (dump_text r')) < dump_size r
  /\ dump_size r = dump_bound r.
Proof.
  intros Hall Hw Hc Hm Hbound r'. subst r'.
  pose proof (dump_bound_room r Hm) as Hroom.
  pose proof (prefix_bytes_nonneg _ Hall) as Hpb.
  assert (Hn1 : Z.of_nat (length (chained r)) + 1 <= INT_MAX)
    by (unfold INT_MAX in *; lia).
  assert (Hwide : dump_bound r < 2 ^ 32) by (unfold INT_MAX in *; lia).
  destruct (dump_complete_wide now r Hall Hw Hc Hm Hn1 Hwide)
    as (Hout & Hlt & Hsize).
  remember (snd (stats_prefix_dump now true r)) as r' eqn:Er' in *. clear Er'.
  rewrite int_small in Hout by (unfold INT_MAX in *; lia).
  split; [exact Hout|]. split; [exact Hlt | exact Hsize].
Qed.


(** The report of a registry with no accumulator and a zeroed wildcard. *)
Lemma dump_empty now r :
  (String.length PRINTF_INT64_MODIFIER <= 14)%nat ->
  chained r = [] ->
  num_prefixes r = 0 ->
  total_prefix_size r = 0 ->
  wildcard r = zeroed ->
  fst (stats_prefix_dump now true r)
  = Some (list_ascii_of_string "END" ++ [CR; LF], 5).
Proof.
  intros Hm Hch Hn Ht Hw.
  assert (Hc : counters_agree r).
  { unfold counters_agree. rewrite Hch, Hn, Ht. split; reflexivity. }
  assert (Hall : Forall well_typed (chained r)) by (rewrite Hch; constructor).
  assert (Hwt : well_typed (wildcard r)) by (rewrite Hw; apply zeroed_well_typed).
  assert (Hbound : dump_bound r <= INT_MAX).
  { unfold dump_bound, sizeof_string, INT_MAX.
    rewrite format_strlen_dump, Hch.
    change (Z.of_nat (String.length wildcard_name)) with 10.
    change (Z.of_nat (String.length terminator)) with 5.
    cbn [length prefix_bytes foldr]. lia. }
  destruct (dump_complete now r Hall Hwt Hc Hm Hbound) as (Hout & _).
  destruct (dump_registry now r) as (_ & _ & Ew & _ & _ & Ech).
  rewrite Hout. unfold dump_text. rewrite Ech, Ew, Hch, Hw. reflexivity.
Qed.

(** C6.  The dump of a registry with no accumulator in its table, both
    counters at zero and a zeroed wildcard is the five bytes of the
    terminator.  The initial registry is one, and so is
    [stats_prefix_clear r] for every [r]: the clear empties every chain
    of the table, resets both counters and zeroes the wildcard.  (The
    length modifier of a [printf] conversion has one or two characters;
    fourteen are allowed for.) *)
Theorem dump_of_empty_registry :
  (String.length PRINTF_INT64_MODIFIER <= 14)%nat ->
  (forall now r,
     chained r = [] ->
     num_prefixes r = 0 ->
     total_prefix_size r = 0 ->
     wildcard r = zeroed ->
     fst (stats_prefix_dump now true r)
     = Some (list_ascii_of_string "END" ++ [CR; LF], 5))
  /\ (forall now,
        fst (stats_prefix_dump now true stats_prefix_init)
        = Some (list_ascii_of_string "END" ++ [CR; LF], 5))
  /\ (forall now r,
        fst (stats_prefix_dump now true (stats_prefix_clear r))
        = Some (list_ascii_of_string "END" ++ [CR; LF], 5))
  /\ (forall r,
        (forall i, (i < Z.to_nat PREFIX_HASH_SIZE)%nat ->
           bucket (stats_prefix_clear r) i = [])
        /\ num_prefixes (stats_prefix_clear r) = 0
        /\ total_prefix_size (stats_prefix_clear r) = 0
        /\ wildcard (stats_prefix_clear r) = zeroed).
Proof.
  intros Hm. split; [|split; [|split]].
  - intros now r. now apply dump_empty.
  - intros now. apply dump_empty; [assumption | | reflexivity..].
    unfold chained. now apply flat_map_empty.
  - intros now r. apply dump_empty; [assumption | | reflexivity..].
    apply clear_chained.
  - intros r. split; [|repeat split].
    intros i Hi. unfold bucket, stats_prefix_clear. cbn [prefix_stats].
    rewrite clear_table. rewrite decide_True; [reflexivity|].
    apply elem_of_seq. lia.
Qed.

Lemma flat_map_single {A} (t : nat -> list A) h n :
  (h < n)%nat ->
  (forall i, i <> h -> t i = []) ->
  flat_map t (seq 0 n) = t h.
Proof.
  intros Hh Hempty.
  replace n with (h + S (n - S h))%nat by lia.
  rewrite seq_app, flat_map_app. cbn [seq flat_map].
  rewrite !flat_map_empty; [now rewrite app_nil_r|..];
    intros i Hi; apply elem_of_seq in Hi; apply Hempty; lia.
Qed.

(** The registry after the first set of a key of prefix [abc]. *)
Lemma record_set_abc :
  prefix_delimiter = ":"%char ->
  let r := stats_prefix_record_set (list_ascii_of_string "abc:123") pool_ok
             stats_prefix_init in
  chained r
  = [mkPREFIX_STATS (list_ascii_of_string "abc") 3 0 0 0 0 1 0 0 0 0 0 0 0]
  /\ num_prefixes r = 1
  /\ total_prefix_size r = 3
  /\ wildcard r = zeroed.
Proof.
  intros Hd r.
  assert (Hscan : delimiter_scan (list_ascii_of_string "abc:123") = 3%nat)
    by (cbn; rewrite Hd; reflexivity).
  assert (Hr : r = mkRegistry
                     (<[key_hashval (list_ascii_of_string "abc:123") :=
                          [mkPREFIX_STATS (list_ascii_of_string "abc") 3
                             0 0 0 0 1 0 0 0 0 0 0 0]]>
                        (<[key_hashval (list_ascii_of_string "abc:123") :=
                             [new_node (list_ascii_of_string "abc:123")]]>
                           (fun _ => [])))
                     1 3 zeroed).
  { subst r. unfold stats_prefix_record_set.
    destruct (stats_prefix_find_cases (list_ascii_of_string "abc:123")
                pool_ok stats_prefix_init)
      as [[Hout _]|[(_ & k & Hk & _)|[(_ & _ & _ & E)|(_ & _ & Hp & _)]]].
    - apply delimiter_scan_absent in Hout. rewrite Hscan in Hout.
      discriminate.
    - discriminate Hk.
    - rewrite E. unfold store, bucket. cbn [prefix_stats num_prefixes
        total_prefix_size wildcard stats_prefix_init].
      rewrite fn_lookup_insert.
      unfold new_node, key_prefix. rewrite Hscan. reflexivity.
    - congruence. }
  rewrite Hr. split; [|repeat split].
  unfold chained. cbn [prefix_stats].
  rewrite (flat_map_single _ (key_hashval (list_ascii_of_string "abc:123"))).
  - apply fn_lookup_insert.
  - apply key_hashval_lt.
  - intros i Hi. now rewrite !fn_lookup_insert_ne by congruence.
Qed.

(** C5.  With [':'] for delimiter, recording a set of the key [abc:123]
    in the initial registry and dumping, at any time, yields exactly the
    line of prefix [abc] with [set 1] and every other number [0],
    followed by the terminator: 97 bytes.  In general, recording a set
    adds one to [num_sets] of the accumulator the key resolves to and
    changes nothing else in it, [num_items] and [num_bytes] included, nor
    anything in any other accumulator. *)
Theorem record_set_then_dump :
  prefix_delimiter = ":"%char ->
  (String.length PRINTF_INT64_MODIFIER <= 14)%nat ->
  (forall now,
     fst (stats_prefix_dump now true
            (stats_prefix_record_set (list_ascii_of_string "abc:123") pool_ok
               stats_prefix_init))
     = Some
         (list_ascii_of_string
            "PREFIX abc item 0 get 0 hit 0 set 1 del 0 evict 0 ov 0 exp 0 bytes 0 txed 0 byte-seconds 0"
          ++ [CR; LF] ++ list_ascii_of_string "END" ++ [CR; LF],
          97))
  /\ (forall key pool r p r1,
        stats_prefix_find key pool r = (Some p, r1) ->
        exists a,
          deref r1 p = Some a
          /\ deref (stats_prefix_record_set key pool r) p
             = Some (set_num_sets (u64 (num_sets a + 1)) a)
          /\ num_sets (set_num_sets (u64 (num_sets a + 1)) a)
             = u64 (num_sets a + 1)
          /\ num_items (set_num_sets (u64 (num_sets a + 1)) a) = num_items a
          /\ num_bytes (set_num_sets (u64 (num_sets a + 1)) a) = num_bytes a
          /\ (forall q, q <> p ->
              deref (stats_prefix_record_set key pool r) q = deref r1 q)).
Proof.
  intros Hd Hm. split.
  - intros now.
    destruct (record_set_abc Hd) as (Hch & Hn & Ht & Hw).
    set (r := stats_prefix_record_set _ _ _) in *.
    assert (Hc : counters_agree r).
    { unfold counters_agree. rewrite Hch, Hn, Ht. split; reflexivity. }
    assert (Hall : Forall well_typed (chained r)).
    { rewrite Hch. repeat constructor; simpl; lia. }
    assert (Hwt : well_typed (wildcard r))
      by (rewrite Hw; apply zeroed_well_typed).
    assert (Hbound : dump_bound r <= INT_MAX).
    { unfold dump_bound, sizeof_string, INT_MAX.
      rewrite format_strlen_dump, Hch.
      change (Z.of_nat (String.length wildcard_name)) with 10.
      change (Z.of_nat (String.length terminator)) with 5.
      cbn [length prefix_bytes foldr prefix_len]. lia. }
    destruct (dump_complete now r Hall Hwt Hc Hm Hbound) as (Hout & _).
    destruct (dump_registry now r) as (_ & _ & Ew & _ & _ & Ech).
    rewrite Hout. unfold dump_text. rewrite Ech, Ew, Hch, Hw.
    vm_compute. reflexivity.
  - intros key pool r p r1 Hf.
    destruct (stats_prefix_find_deref _ _ _ _ _ Hf) as [a Ha].
    exists a. split; [exact Ha|].
    unfold stats_prefix_record_set. rewrite Hf.
    split;
      [exact (deref_store_same r1 p
                (fun a => set_num_sets (u64 (num_sets a + 1)) a) a Ha)|].
    split; [reflexivity|]. split; [reflexivity|]. split; [reflexivity|].
    intros q Hq. now apply deref_store_other.
Qed.

End Report.

(** ** Where the [int] counters and the [int] length give way *)

Section LongPrefix.
Context `{Externals}.

Lemma int_wraps x : INT_MAX < x < 2 ^ 32 + 2 ^ 31 -> int x = x - 2 ^ 32.
Proof.
  intros Hx. unfold int, INT_MAX in *.
  rewrite <- (Z.mod_unique (x + 2 ^ 31) (2 ^ 32) 1 (x - 2 ^ 31)); lia.
Qed.



(** The registry after the first set of a key, from the initial
    registry: one node, for the bytes before the first delimiter. *)
Lemma first_set_registry pre rest :
  prefix_delimiter ∉ pre ->
  let key := pre ++ prefix_delimiter :: rest in
  let r := stats_prefix_record_set key pool_ok stats_prefix_init in
  chained r
  = [set_num_sets 1
       (set_prefix_len (Z.of_nat (length pre)) (set_prefix pre zeroed))]
  /\ num_prefixes r = 1
  /\ total_prefix_size r = int (Z.of_nat (length pre))
  /\ wildcard r = zeroed.
Proof.
  intros Hout key r.
  pose proof (delimiter_scan_split pre rest Hout) as Hscan.
  pose proof (key_prefix_split pre rest Hout) as Hpre.
  fold key in Hscan, Hpre.
  assert (Hr : r = mkRegistry
                     (<[key_hashval key :=
                          [set_num_sets 1 (new_node key)]]>
                        (<[key_hashval key := [new_node key]]> (fun _ => [])))
                     1 (int (0 + Z.of_nat (delimiter_scan key))) zeroed).
  { subst r. unfold stats_prefix_record_set.
    destruct (stats_prefix_find_cases key pool_ok stats_prefix_init)
      as [[Ho _]|[(_ & k & Hk & _)|[(_ & _ & _ & E)|(_ & _ & Hp & _)]]].
    - exfalso. apply Ho, delimiter_in_split.
    - discriminate Hk.
    - rewrite E. unfold store, bucket. cbn [prefix_stats num_prefixes
        total_prefix_size wildcard stats_prefix_init].
      rewrite fn_lookup_insert. reflexivity.
    - congruence. }
  rewrite Hr. cbn [num_prefixes total_prefix_size wildcard].
  rewrite Hscan, Z.add_0_l.
  split; [|repeat split].
  unfold chained. cbn [prefix_stats].
  rewrite (flat_map_single _ (key_hashval key)).
  - rewrite fn_lookup_insert. unfold new_node. now rewrite Hscan, Hpre.
  - apply key_hashval_lt.
  - intros i Hi. now rewrite !fn_lookup_insert_ne by congruence.
Qed.

(** A first prefix of 2^31 bytes or more: the stored bytes and what
    [total_prefix_size] says of them. *)
Lemma long_prefix_counters pre rest :
  prefix_delimiter ∉ pre ->
  INT_MAX < Z.of_nat (length pre) < 2 ^ 32 ->
  let r := stats_prefix_record_set (pre ++ prefix_delimiter :: rest) pool_ok
             stats_prefix_init in
  prefix_bytes (chained r) = Z.of_nat (length pre)
  /\ total_prefix_size r = Z.of_nat (length pre) - 2 ^ 32.
Proof.
  intros Hout Hlen r.
  destruct (first_set_registry pre rest Hout) as (Hch & _ & Ht & _).
  fold r in Hch, Ht. rewrite Hch, Ht. split.
  - cbn [prefix_bytes foldr prefix_len set_num_sets set_prefix_len]. lia.
  - apply int_wraps. lia.
Qed.


End LongPrefix.

(** * The properties at work on the unit-test settings *)

Module UnitTest.

#[local] Existing Instance unit_test_externals.

Lemma delimiter_in_abc_123 : prefix_delimiter ∈ key_abc_123.
Proof. do 3 apply list_elem_of_further. apply list_elem_of_here. Defined.

Lemma delimiter_in_abc_d : prefix_delimiter ∈ key_abc_d.
Proof. do 3 apply list_elem_of_further. apply list_elem_of_here. Defined.

Lemma find_abc_123 (r : registry) (p : pfs_ptr) :
  fst (stats_prefix_find key_abc_123 pool_ok r) = Some p ->
  stats_prefix_find key_abc_123 pool_ok r
  = (Some p, snd (stats_prefix_find key_abc_123 pool_ok r)).
Proof. intros E. apply injective_projections; [exact E | reflexivity]. Defined.

Example utoa_uint64_max :
  utoa (2 ^ 64 - 1) = list_ascii_of_string "18446744073709551615".
Proof. vm_compute. reflexivity. Qed.

(** The second scenario of the design: a hit of 5 bytes after the set. *)
Example dump_after_hit :
  fst (stats_prefix_dump 7 true
         (stats_prefix_record_get key_abc_123 5 true pool_ok r_abc))
  = Some
      (list_ascii_of_string
         "PREFIX abc item 0 get 1 hit 1 set 1 del 0 evict 0 ov 0 exp 0 bytes 0 txed 5 byte-seconds 0"
       ++ [CR; LF] ++ list_ascii_of_string "END" ++ [CR; LF],
       97).
Proof. vm_compute. reflexivity. Qed.

(** A key without delimiter is counted on the wildcard line, and bytes
    held from time 10 to time 15 weigh 500 byte-seconds. *)
Example dump_with_wildcard :
  fst (stats_prefix_dump 15 true
         (stats_prefix_record_delete key_xyz123 pool_ok r_bytes))
  = Some
      (list_ascii_of_string
         "PREFIX abc item 1 get 0 hit 0 set 0 del 0 evict 0 ov 0 exp 0 bytes 100 txed 0 byte-seconds 500"
       ++ [CR; LF]
       ++ list_ascii_of_string
            "PREFIX *wildcard* item 0 get 0 hit 0 set 0 del 1 evict 0 ov 0 exp 0 bytes 0 txed 0 byte-seconds 0"
       ++ [CR; LF] ++ list_ascii_of_string "END" ++ [CR; LF],
       200).
Proof. vm_compute. reflexivity. Qed.

Lemma byte_seconds_accumulate_witness :
  0 <= 5 < 2 ^ 32
  /\ in_table p_abc
  /\ exists a1 a2,
       deref (snd (stats_prefix_dump 100 true r_bytes)) p_abc = Some a1
       /\ deref
            (snd (stats_prefix_dump (rel_time (100 + 5)) true
                    (snd (stats_prefix_dump 100 true r_bytes)))) p_abc
          = Some a2
       /\ num_bytes a1 = 100
       /\ num_bytes a2 = 100
       /\ total_byte_seconds a1 = 9000
       /\ total_byte_seconds a2 = 9000 + 100 * 5.
Proof.
  assert (Hk : 0 <= 5 < 2 ^ 32) by lia.
  assert (Hp : in_table p_abc) by apply key_hashval_lt.
  split; [exact Hk|]. split; [exact Hp|].
  destruct byte_seconds_accumulate as (_ & _ & _ & _ & Hdumps).
  assert (Ha1 : deref (snd (stats_prefix_dump 100 true r_bytes)) p_abc
                = Some (mkPREFIX_STATS (list_ascii_of_string "abc") 3 1 100
                          0 0 0 0 0 0 0 100 0 9000))
    by (vm_compute; reflexivity).
  destruct (Hdumps 100 5 r_bytes p_abc _ Hk Hp Ha1)
    as (a2 & Ha2 & Hnb & Htbs & Hexact).
  eexists. exists a2. split; [exact Ha1|]. split; [exact Ha2|].
  split; [reflexivity|]. split; [exact Hnb|]. split; [reflexivity|].
  apply Hexact. simpl. lia.
Defined.


Lemma same_prefix_same_accumulator_witness :
  (prefix_delimiter ∉ list_ascii_of_string "abc")
  /\ (prefix_delimiter ∉ list_ascii_of_string "ab")
  /\ stats_prefix_find key_abc_d pool_malloc_null
       (snd (stats_prefix_find key_abc_123 pool_ok stats_prefix_init))
     = (Some p_abc,
        snd (stats_prefix_find key_abc_123 pool_ok stats_prefix_init))
  /\ forall q r2,
       stats_prefix_find (list_ascii_of_string "ab:1") pool_ok
         (snd (stats_prefix_find key_abc_123 pool_ok stats_prefix_init))
       = (Some q, r2) ->
       q <> p_abc.
Proof.
  assert (Habc : prefix_delimiter ∉ list_ascii_of_string "abc")
    by (apply delimiter_scan_absent; vm_compute; reflexivity).
  assert (Hab : prefix_delimiter ∉ list_ascii_of_string "ab")
    by (apply delimiter_scan_absent; vm_compute; reflexivity).
  assert (Hf : stats_prefix_find key_abc_123 pool_ok stats_prefix_init
               = (Some p_abc,
                  snd (stats_prefix_find key_abc_123 pool_ok stats_prefix_init)))
    by (apply find_abc_123; vm_compute; reflexivity).
  split; [exact Habc|]. split; [exact Hab|]. split.
  - pose proof (same_prefix_same_accumulator (list_ascii_of_string "abc")
                  (list_ascii_of_string "abc") (list_ascii_of_string "123")
                  (list_ascii_of_string "d") stats_prefix_init Habc Habc)
      as (_ & _ & Hsame).
    exact (proj1 (Hsame pool_ok pool_malloc_null p_abc _ Hf) eq_refl).
  - pose proof (same_prefix_same_accumulator (list_ascii_of_string "abc")
                  (list_ascii_of_string "ab") (list_ascii_of_string "123")
                  (list_ascii_of_string "1") stats_prefix_init Habc Hab)
      as (_ & _ & Hother).
    destruct (Hother pool_ok pool_ok p_abc _ Hf) as (_ & Hne & _).
    apply Hne. discriminate.
Defined.

Lemma no_delimiter_is_wildcard_witness :
  (prefix_delimiter ∉ key_xyz123)
  /\ stats_prefix_find key_xyz123 pool_calloc_null r_abc = (Some Wildcard, r_abc).
Proof.
  assert (Hout : prefix_delimiter ∉ key_xyz123).
  { apply delimiter_scan_absent. vm_compute. reflexivity. }
  split; [exact Hout|].
  exact (no_delimiter_is_wildcard key_xyz123 pool_calloc_null r_abc Hout).
Defined.

Lemma record_set_then_dump_witness :
  prefix_delimiter = ":"%char
  /\ (String.length PRINTF_INT64_MODIFIER <= 14)%nat
  /\ fst (stats_prefix_dump 7 true r_abc)
     = Some
         (list_ascii_of_string
            "PREFIX abc item 0 get 0 hit 0 set 1 del 0 evict 0 ov 0 exp 0 bytes 0 txed 0 byte-seconds 0"
          ++ [CR; LF] ++ list_ascii_of_string "END" ++ [CR; LF],
          97).
Proof.
  assert (Hm : (String.length PRINTF_INT64_MODIFIER <= 14)%nat)
    by (simpl; lia).
  split; [reflexivity|]. split; [exact Hm|].
  exact (proj1 (record_set_then_dump eq_refl Hm) 7).
Defined.

Lemma dump_of_empty_registry_witness :
  (String.length PRINTF_INT64_MODIFIER <= 14)%nat
  /\ fst (stats_prefix_dump 7 true (stats_prefix_clear r_bytes))
     = Some (list_ascii_of_string "END" ++ [CR; LF], 5).
Proof.
  assert (Hm : (String.length PRINTF_INT64_MODIFIER <= 14)%nat)
    by (simpl; lia).
  split; [exact Hm|].
  exact (proj1 (proj2 (proj2 (dump_of_empty_registry Hm))) 7 r_bytes).
Defined.

Lemma record_get_counts_witness :
  stats_prefix_find key_abc_123 pool_ok r_abc = (Some p_abc, r_abc)
  /\ exists miss hit,
       deref (stats_prefix_record_get key_abc_123 5 false pool_ok r_abc) p_abc
       = Some miss
       /\ deref (stats_prefix_record_get key_abc_123 5 true pool_ok r_abc) p_abc
          = Some hit
       /\ num_gets miss = 1 /\ num_hits miss = 0 /\ bytes_txed miss = 0
       /\ num_sets miss = 1
       /\ num_gets hit = 1 /\ num_hits hit = 1 /\ bytes_txed hit = 5
       /\ num_sets hit = 1.
Proof.
  assert (Hf : stats_prefix_find key_abc_123 pool_ok r_abc = (Some p_abc, r_abc))
    by (vm_compute; reflexivity).
  split; [exact Hf|].
  destruct (record_get_counts key_abc_123 5 pool_ok r_abc r_abc p_abc Hf)
    as (a & miss & hit & Ha & Hmiss & Hhit & _ & (Mg & Mh & Mb) & (Hg & Hh & Hb)
        & Hrest & _).
  assert (Ea : a = mkPREFIX_STATS (list_ascii_of_string "abc") 3 0 0 0 0 1
                     0 0 0 0 0 0 0).
  { assert (E : Some a = Some (mkPREFIX_STATS (list_ascii_of_string "abc") 3
                                 0 0 0 0 1 0 0 0 0 0 0 0))
      by (rewrite <- Ha; vm_compute; reflexivity).
    now inversion E. }
  destruct (Hrest miss (or_introl eq_refl)) as (_ & _ & _ & _ & _ & _ & Ms & _).
  destruct (Hrest hit (or_intror eq_refl)) as (_ & _ & _ & _ & _ & _ & Hs & _).
  exists miss, hit. rewrite Mg, Mh, Mb, Ms, Hg, Hh, Hb, Hs, Ea.
  split; [exact Hmiss|]. split; [exact Hhit|]. repeat split.
Defined.

Lemma allocation_failure_skips_witness :
  pool_calloc_null <> pool_ok
  /\ prefix_delimiter ∈ key_abc_123
  /\ chain_find key_abc_d (delimiter_scan key_abc_d)
       (bucket stats_prefix_init (key_hashval key_abc_d)) = None
  /\ stats_prefix_find key_abc_d pool_calloc_null stats_prefix_init
     = (None, stats_prefix_init)
  /\ stats_prefix_record_set key_abc_d pool_calloc_null stats_prefix_init
     = stats_prefix_init
  /\ stats_prefix_record_removal key_abc_d 1 0 0 9 pool_calloc_null
       stats_prefix_init
     = stats_prefix_init
  /\ stats_prefix_dump 9 false r_bytes = (None, r_bytes).
Proof.
  assert (Hpool : pool_calloc_null <> pool_ok) by discriminate.
  assert (Hnone : chain_find key_abc_d (delimiter_scan key_abc_d)
                    (bucket stats_prefix_init (key_hashval key_abc_d)) = None)
    by reflexivity.
  destruct (allocation_failure_skips key_abc_d pool_calloc_null
              stats_prefix_init 9) as (Hfail & Hskip & _).
  pose proof (Hfail Hpool delimiter_in_abc_d Hnone) as Hf.
  destruct (Hskip _ Hf) as (_ & _ & _ & _ & Hset & _ & Hrem).
  split; [exact Hpool|]. split; [exact delimiter_in_abc_123|].
  split; [exact Hnone|].
  split; [exact Hf|]. split; [exact Hset|]. split; [apply Hrem|].
  exact (proj2 (proj2 (allocation_failure_skips key_abc_d pool_ok r_bytes 9))).
Defined.

Lemma counters_track_table_witness :
  reachable r_abc
  /\ within_int r_abc
  /\ counters_agree r_abc
  /\ num_prefixes r_abc = 1
  /\ total_prefix_size r_abc = 3
  /\ one_node_more 3 stats_prefix_init r_abc.
Proof.
  assert (Hreach : reachable r_abc)
    by exact (reachable_run (call_record_set key_abc_123 pool_ok) _
                reachable_init).
  assert (Hint : within_int r_abc).
  { unfold within_int.
    assert (Hl : length (chained r_abc) = 1%nat) by (vm_compute; reflexivity).
    assert (Hb : prefix_bytes (chained r_abc) = 3) by (vm_compute; reflexivity).
    rewrite Hl, Hb. unfold INT_MAX. lia. }
  destruct counters_track_table as (_ & _ & Hinv & Hgrow & _).
  split; [exact Hreach|]. split; [exact Hint|].
  split; [exact (Hinv r_abc Hreach Hint)|].
  split; [reflexivity|]. split; [reflexivity|].
  destruct (Hgrow (call_record_set key_abc_123 pool_ok) key_abc_123 pool_ok
              stats_prefix_init eq_refl)
    as [[_ Hold]|[Hnew _]].
  - exfalso.
    destruct (Hold p_abc _ (find_abc_123 stats_prefix_init p_abc eq_refl))
      as [a Ha].
    discriminate Ha.
  - exact Hnew.
Defined.

Lemma record_removal_wraps_witness :
  stats_prefix_find key_abc_123 pool_ok stats_prefix_init
  = (Some p_abc, snd (stats_prefix_find key_abc_123 pool_ok stats_prefix_init))
  /\ exists a',
       deref (stats_prefix_record_removal key_abc_123 1 0 0 9 pool_ok
                stats_prefix_init) p_abc = Some a'
       /\ num_bytes a' = 2 ^ 64 - 1
       /\ num_items a' = 2 ^ 32 - 1.
Proof.
  assert (Hf : stats_prefix_find key_abc_123 pool_ok stats_prefix_init
               = (Some p_abc,
                  snd (stats_prefix_find key_abc_123 pool_ok stats_prefix_init)))
    by (apply find_abc_123; vm_compute; reflexivity).
  split; [exact Hf|].
  destruct (record_removal_wraps key_abc_123 1 0 0 9 pool_ok stats_prefix_init
              _ p_abc Hf)
    as (a & a' & Ha & Ha' & _ & _ & _ & _ & Hbytes & Hitems).
  assert (Ea : a = new_node key_abc_123).
  { assert (E : Some a = Some (new_node key_abc_123))
      by (rewrite <- Ha; vm_compute; reflexivity).
    now inversion E. }
  exists a'. split; [exact Ha'|]. subst a. split.
  - rewrite Hbytes; [reflexivity | simpl; lia..].
  - apply Hitems. reflexivity.
Defined.

(** Where the design as worded gives way. *)

Lemma delimiter_not_in_letters (n : nat) :
  prefix_delimiter ∉ replicate n "a"%char.
Proof.
  intros Hin. apply elem_of_replicate in Hin as [E _]. discriminate E.
Defined.


Lemma reachable_long_key (n : nat) : reachable (r_long_key n).
Proof.
  exact (reachable_run (call_record_set (long_key n) pool_ok) _ reachable_init).
Qed.

Lemma long_key_counters (n : nat) :
  INT_MAX < Z.of_nat n < 2 ^ 32 ->
  prefix_bytes (chained (r_long_key n)) = Z.of_nat n
  /\ total_prefix_size (r_long_key n) = Z.of_nat n - 2 ^ 32.
Proof.
  intros Hn.
  pose proof (long_prefix_counters (replicate n "a"%char)
                (list_ascii_of_string "x") (delimiter_not_in_letters n)) as Hc.
  rewrite length_replicate in Hc. exact (Hc Hn).
Qed.


(** After one removal that nothing had stored, [num_bytes] is 2^64 - 1;
    between a dump at time 100 and a dump at time 105, with no call in
    between, [total_byte_seconds] goes from 2^64 - 91 to 2^64 - 96: it
    does not grow by [num_bytes * 5]. *)
Lemma byte_seconds_wrap_counterexample :
  reachable r_underflow
  /\ exists a1 a2,
       deref (snd (stats_prefix_dump 100 true r_underflow)) p_abc = Some a1
       /\ deref
            (snd (stats_prefix_dump 105 true
                    (snd (stats_prefix_dump 100 true r_underflow)))) p_abc
          = Some a2
       /\ num_bytes a1 = 2 ^ 64 - 1
       /\ num_bytes a2 = 2 ^ 64 - 1
       /\ total_byte_seconds a1 = 2 ^ 64 - 91
       /\ total_byte_seconds a2 = 2 ^ 64 - 96
       /\ total_byte_seconds a2
          <> total_byte_seconds a1 + num_bytes a1 * 5.
Proof.
  split.
  - exact (reachable_run (call_record_removal key_abc_123 1 0 0 9 pool_ok) _
             reachable_init).
  - exists (mkPREFIX_STATS (list_ascii_of_string "abc") 3 (2 ^ 32 - 1) 100
              0 0 0 0 0 0 0 (2 ^ 64 - 1) 0 (2 ^ 64 - 91)),
           (mkPREFIX_STATS (list_ascii_of_string "abc") 3 (2 ^ 32 - 1) 105
              0 0 0 0 0 0 0 (2 ^ 64 - 1) 0 (2 ^ 64 - 96)).
    split; [vm_compute; reflexivity|]. split; [vm_compute; reflexivity|].
    cbn [num_bytes total_byte_seconds].
    split; [reflexivity|]. split; [reflexivity|]. split; [reflexivity|].
    split; [reflexivity | lia].
Qed.


(** After one set of a key whose prefix has 2^31 bytes the table stores
    2^31 prefix bytes and [total_prefix_size] is -2^31. *)
Lemma counters_overflow_counterexample :
  reachable (r_long_key (Z.to_nat (2 ^ 31)))
  /\ prefix_bytes (chained (r_long_key (Z.to_nat (2 ^ 31)))) = 2 ^ 31
  /\ total_prefix_size (r_long_key (Z.to_nat (2 ^ 31))) = - 2 ^ 31
  /\ ~ counters_agree (r_long_key (Z.to_nat (2 ^ 31))).
Proof.
  assert (Hn : Z.of_nat (Z.to_nat (2 ^ 31)) = 2 ^ 31) by (apply Z2Nat.id; lia).
  destruct (long_key_counters (Z.to_nat (2 ^ 31))) as [Hbytes Htotal].
  { rewrite Hn. unfold INT_MAX. lia. }
  rewrite Hn in Hbytes, Htotal.
  split; [apply reachable_long_key|].
  split; [exact Hbytes|]. split; [rewrite Htotal; lia|].
  intros [_ Hagree]. rewrite Htotal, Hbytes in Hagree. lia.
Qed.

End UnitTest.

(** * Further properties of the registry *)

(** ** Keys *)

Section Keys.
Context `{Externals}.

(** X1.  The scan stops at the first delimiter: the bytes before it are
    free of the delimiter; a key with a delimiter is its prefix, the
    delimiter and the rest; a key without one is its own prefix. *)
Theorem key_splits_at_first_delimiter (key : list ascii) :
  (prefix_delimiter ∉ key_prefix key)
  /\ (prefix_delimiter ∈ key ->
      (delimiter_scan key < length key)%nat
      /\ key = key_prefix key
               ++ prefix_delimiter :: drop (S (delimiter_scan key)) key)
  /\ ((prefix_delimiter ∉ key) -> key_prefix key = key).
Proof.
  unfold key_prefix. induction key as [|c rest (IHout & IHin & IHall)].
  - split; [apply not_elem_of_nil|]. split; [|reflexivity].
    intros Hin. now apply elem_of_nil in Hin.
  - cbn [delimiter_scan].
    destruct (decide (c = prefix_delimiter)) as [->|Hne].
    + split; [apply not_elem_of_nil|]. split.
      * intros _. split; [simpl; lia | reflexivity].
      * intros Hout. exfalso. apply Hout, list_elem_of_here.
    + cbn [take drop]. split; [|split].
      * apply not_elem_of_cons. split; [congruence | exact IHout].
      * intros Hin. apply elem_of_cons in Hin as [Heq|Hin]; [congruence|].
        destruct (IHin Hin) as [Hlt Hsplit].
        split; [simpl; lia|]. cbn [app]. f_equal. exact Hsplit.
      * intros Hout. apply not_elem_of_cons in Hout as [_ Hout].
        f_equal. now apply IHall.
Qed.

End Keys.

(** ** What a record call touches *)

Section Frame.
Context `{Externals}.

(** Linking a node in does not disturb the structures already there. *)
Lemma stats_prefix_find_keeps key pool r o r1 p a :
  stats_prefix_find key pool r = (o, r1) ->
  deref r p = Some a ->
  deref r1 p = Some a.
Proof.
  intros Hf Ha.
  destruct (stats_prefix_find_cases key pool r)
    as [[_ E]|[(_ & k & _ & E)|[(_ & _ & _ & E)|(_ & _ & _ & E)]]];
    rewrite E in Hf; inversion Hf; subst; clear Hf E; try exact Ha.
  destruct p as [|h k]; [exact Ha|].
  unfold deref, bucket in *. cbn [prefix_stats].
  destruct (decide (key_hashval key = h)) as [<-|Hne].
  - rewrite fn_lookup_insert. cbn [chain_get].
    rewrite decide_False; [exact Ha|].
    apply chain_get_rank in Ha. lia.
  - now rewrite fn_lookup_insert_ne.
Qed.

Lemma record_frame key pool f r p a :
  deref r p = Some a ->
  (forall q r1, stats_prefix_find key pool r = (Some q, r1) -> q <> p) ->
  deref
    (match stats_prefix_find key pool r with
     | (Some q, r1) => store q f r1
     | (None, r1) => r1
     end) p = Some a.
Proof.
  intros Ha Hother.
  destruct (stats_prefix_find key pool r) as [[q|] r1] eqn:Hf.
  - rewrite deref_store_other by (intros ->; now apply (Hother q r1)).
    now apply (stats_prefix_find_keeps key pool r (Some q) r1).
  - now apply (stats_prefix_find_keeps key pool r None r1).
Qed.

(** X2.  A record call changes no accumulator but the one its key
    resolves to: every structure, chained or wildcard, that the call's
    [stats_prefix_find] does not return reads after the call as it
    read before, also when the call links a new node into the same
    bucket. *)
Theorem record_changes_one_accumulator (c : call) (key : list ascii)
    (pool : pool_outcome) (r : registry) (p : pfs_ptr) (a : PREFIX_STATS) :
  call_key c = Some (key, pool) ->
  deref r p = Some a ->
  (forall q r1, stats_prefix_find key pool r = (Some q, r1) -> q <> p) ->
  deref (run c r) p = Some a.
Proof.
  intros Hkey Ha Hother.
  destruct c; cbn [call_key] in Hkey; inversion Hkey; subst; cbn [run];
    now apply record_frame.
Qed.


(** X4.  [stats_prefix_record_byte_total_change] counts an item exactly
    when the flag [PREFIX_INCR_ITEM_COUNT] is set and an overwrite
    exactly when [PREFIX_IS_OVERWRITE] is set, the one independently of
    the other, and touches no other event counter. *)
Theorem byte_total_change_flags (key : list ascii) (bytes flags now : Z)
    (pool : pool_outcome) (r r1 : registry) (p : pfs_ptr) :
  stats_prefix_find key pool r = (Some p, r1) ->
  exists a a',
    deref r1 p = Some a
    /\ deref (stats_prefix_record_byte_total_change key bytes flags now
                pool r) p = Some a'
    /\ num_items a'
       = (if decide (Z.land flags PREFIX_INCR_ITEM_COUNT <> 0)
          then u32 (num_items a + 1) else num_items a)
    /\ num_overwrites a'
       = (if decide (Z.land flags PREFIX_IS_OVERWRITE <> 0)
          then u64 (num_overwrites a + 1) else num_overwrites a)
    /\ num_gets a' = num_gets a /\ num_hits a' = num_hits a
    /\ num_sets a' = num_sets a /\ num_deletes a' = num_deletes a
    /\ num_evicts a' = num_evicts a /\ num_expires a' = num_expires a
    /\ bytes_txed a' = bytes_txed a
    /\ prefix a' = prefix a /\ prefix_len a' = prefix_len a.
Proof.
  intros Hf.
  destruct (stats_prefix_find_deref _ _ _ _ _ Hf) as [a Ha].
  exists a. eexists. split; [exact Ha|].
  unfold stats_prefix_record_byte_total_change. rewrite Hf.
  split; [apply deref_store_same; exact Ha|].
  cbv zeta.
  destruct (decide (now <> last_update a));
    destruct (decide (Z.land flags PREFIX_INCR_ITEM_COUNT <> 0));
    destruct (decide (Z.land flags PREFIX_IS_OVERWRITE <> 0));
    repeat (split; [reflexivity|]); reflexivity.
Qed.

(** X5.  [stats_prefix_record_removal] counts an eviction when
    [UNLINK_IS_EVICT] is set, an expiry when [UNLINK_IS_EXPIRED] is set
    and [UNLINK_IS_EVICT] is not, and neither otherwise: never both for
    one removal.  No other event counter changes. *)
Theorem record_removal_reason (key : list ascii) (bytes time flags now : Z)
    (pool : pool_outcome) (r r1 : registry) (p : pfs_ptr) :
  stats_prefix_find key pool r = (Some p, r1) ->
  exists a a',
    deref r1 p = Some a
    /\ deref (stats_prefix_record_removal key bytes time flags now pool r) p
       = Some a'
    /\ num_evicts a'
       = (if decide (Z.land flags UNLINK_IS_EVICT <> 0)
          then u64 (num_evicts a + 1) else num_evicts a)
    /\ num_expires a'
       = (if decide (Z.land flags UNLINK_IS_EVICT <> 0) then num_expires a
          else if decide (Z.land flags UNLINK_IS_EXPIRED <> 0)
               then u64 (num_expires a + 1) else num_expires a)
    /\ (num_evicts a' = num_evicts a \/ num_expires a' = num_expires a)
    /\ num_gets a' = num_gets a /\ num_hits a' = num_hits a
    /\ num_sets a' = num_sets a /\ num_deletes a' = num_deletes a
    /\ num_overwrites a' = num_overwrites a
    /\ bytes_txed a' = bytes_txed a
    /\ prefix a' = prefix a /\ prefix_len a' = prefix_len a.
Proof.
  intros Hf.
  destruct (stats_prefix_find_deref _ _ _ _ _ Hf) as [a Ha].
  exists a. eexists. split; [exact Ha|].
  unfold stats_prefix_record_removal. rewrite Hf.
  split; [apply deref_store_same; exact Ha|].
  cbv zeta.
  destruct (decide (Z.land flags UNLINK_IS_EVICT <> 0));
    [|destruct (decide (Z.land flags UNLINK_IS_EXPIRED <> 0))];
    (destruct (decide (now <> last_update _));
     (split; [reflexivity|]); (split; [reflexivity|]);
     (split; [auto|]); repeat (split; [reflexivity|]); reflexivity).
Qed.

End Frame.

(** ** The table as a hash table *)

Section HashTable.
Context `{Externals}.

Lemma key_hashval_prefix key : key_hashval key = prefix_hashval (key_prefix key).
Proof. reflexivity. Qed.

Lemma prefix_hashval_lt pre : (prefix_hashval pre < Z.to_nat PREFIX_HASH_SIZE)%nat.
Proof.
  unfold prefix_hashval, PREFIX_HASH_SIZE.
  pose proof (Z.mod_pos_bound (u32 (hash pre 0)) 256). lia.
Qed.

Lemma take_key_prefix key :
  take (delimiter_scan key) (key_prefix key) = key_prefix key.
Proof.
  apply take_ge. rewrite key_prefix_length. lia.
Qed.

Lemma chain_get_elem pfs k a : chain_get pfs k = Some a -> a ∈ pfs.
Proof.
  induction pfs as [|p next IH]; simpl; [discriminate|].
  destruct (decide (k = length next)).
  - intros [= ->]. apply list_elem_of_here.
  - intros Hk. apply list_elem_of_further. now apply IH.
Qed.

(** A scan that fails has met no node with the candidate's length and
    bytes. *)
Lemma chain_find_None key n pfs a :
  chain_find key n pfs = None ->
  a ∈ pfs ->
  prefix_len a = Z.of_nat n ->
  take n (prefix a) <> take n key.
Proof.
  induction pfs as [|p next IH]; intros Hfind Hin; [now apply elem_of_nil in Hin|].
  simpl in Hfind.
  destruct ((Z.of_nat n =? prefix_len p) && memcmp_eq (prefix p) key n) eqn:Htest;
    [discriminate|].
  apply elem_of_cons in Hin as [->|Hin]; [|now apply IH].
  intros Hlen Heq. apply andb_false_iff in Htest as [Hl|Hc].
  - apply Z.eqb_neq in Hl. congruence.
  - unfold memcmp_eq in Hc. apply bool_decide_eq_false in Hc. contradiction.
Qed.

Lemma chain_find_elem key n pfs a :
  a ∈ pfs ->
  prefix_len a = Z.of_nat n ->
  take n (prefix a) = take n key ->
  exists k, chain_find key n pfs = Some k.
Proof.
  intros Hin Hlen Heq.
  destruct (chain_find key n pfs) as [k|] eqn:Hfind; [eauto|].
  exfalso. now apply (chain_find_None key n pfs a).
Qed.

Lemma chain_set_prefixes f k pfs :
  keeps_prefix f -> map prefix (chain_set f k pfs) = map prefix pfs.
Proof.
  intros Hf. induction pfs as [|p next IH]; simpl; [reflexivity|].
  destruct (decide (k = length next)); simpl; [|now rewrite IH].
  now rewrite (proj1 (Hf p)).
Qed.


Lemma node_ok_keeps f i a : keeps_prefix f -> node_ok i a -> node_ok i (f a).
Proof.
  intros Hf (Hh & Hd & Hl). destruct (Hf a) as [Ep El].
  unfold node_ok. rewrite Ep, El. auto.
Qed.

Lemma dump_flush_keeps now : keeps_prefix (dump_flush now).
Proof. intros a. split; reflexivity. Qed.

Lemma delimiter_not_in_prefix key : prefix_delimiter ∉ key_prefix key.
Proof.
  unfold key_prefix. induction key as [|c rest IH]; [apply not_elem_of_nil|].
  cbn [delimiter_scan]. destruct (decide (c = prefix_delimiter)).
  - apply not_elem_of_nil.
  - cbn [take]. apply not_elem_of_cons. split; [congruence | exact IH].
Qed.

Lemma new_node_ok key : node_ok (key_hashval key) (new_node key).
Proof.
  unfold node_ok, new_node. cbn [prefix prefix_len set_prefix set_prefix_len].
  split; [reflexivity|]. split; [apply delimiter_not_in_prefix|].
  now rewrite key_prefix_length.
Qed.

(** [stats_prefix_find] keeps the table a hash table. *)
Lemma stats_prefix_find_table key pool r o r1 :
  table_ok r -> stats_prefix_find key pool r = (o, r1) -> table_ok r1.
Proof.
  intros Hok Hf.
  destruct (stats_prefix_find_cases key pool r)
    as [[_ E]|[(_ & k & _ & E)|[(_ & Hnone & _ & E)|(_ & _ & _ & E)]]];
    rewrite E in Hf; inversion Hf; subst; clear Hf E; try exact Hok.
  intros i Hi. unfold bucket. cbn [prefix_stats].
  destruct (decide (key_hashval key = i)) as [<-|Hne];
    [|rewrite fn_lookup_insert_ne by assumption; now apply Hok].
  rewrite fn_lookup_insert. destruct (Hok _ Hi) as [Hnodes Hnodup].
  split; [constructor; [apply new_node_ok | exact Hnodes]|].
  cbn [map]. apply NoDup_cons. split; [|exact Hnodup].
  intros Hin. apply list_elem_of_fmap in Hin as (a & Ea & Ha).
  rewrite Forall_forall in Hnodes. destruct (Hnodes a Ha) as (_ & _ & Hl).
  cbn [prefix new_node set_prefix set_prefix_len] in Ea.
  apply (chain_find_None key (delimiter_scan key) _ a Hnone Ha).
  - rewrite Hl, <- Ea. now rewrite key_prefix_length.
  - rewrite <- Ea. fold (key_prefix key). now rewrite take_key_prefix.
Qed.

Lemma store_table q f r :
  keeps_prefix f -> table_ok r -> table_ok (store q f r).
Proof.
  intros Hf Hok. destruct q as [|h k]; [exact Hok|].
  intros i Hi. unfold bucket. cbn [store prefix_stats].
  destruct (decide (h = i)) as [<-|Hne];
    [|rewrite fn_lookup_insert_ne by assumption; now apply Hok].
  rewrite fn_lookup_insert, chain_set_prefixes by assumption.
  destruct (Hok _ Hi) as [Hnodes Hnodup]. split; [|exact Hnodup].
  apply chain_set_Forall; [|exact Hnodes].
  intros a. now apply node_ok_keeps.
Qed.

Lemma record_table key pool f r :
  keeps_prefix f ->
  table_ok r ->
  table_ok
    (match stats_prefix_find key pool r with
     | (Some q, r1) => store q f r1
     | (None, r1) => r1
     end).
Proof.
  intros Hf Hok.
  destruct (stats_prefix_find key pool r) as [[q|] r1] eqn:E.
  - apply store_table; [exact Hf|]. eapply stats_prefix_find_table; eassumption.
  - eapply stats_prefix_find_table; eassumption.
Qed.

Ltac keeps_prefix_update :=
  let a := fresh "a" in
  intros a; cbv zeta; repeat case_decide; split; reflexivity.

Lemma run_table c r : table_ok r -> table_ok (run c r).
Proof.
  intros Hok. destruct c; cbn [run].
  - apply record_table; [|exact Hok]. intros a. destruct is_hit; split; reflexivity.
  - apply record_table; [keeps_prefix_update | exact Hok].
  - apply record_table; [keeps_prefix_update | exact Hok].
  - apply record_table; [keeps_prefix_update | exact Hok].
  - apply record_table; [keeps_prefix_update | exact Hok].
  - destruct malloc_ok; [|exact Hok].
    destruct (dump_registry current_time r) as (Hin & _).
    intros i Hi. rewrite (Hin i Hi), map_map.
    destruct (Hok _ Hi) as [Hnodes Hnodup]. split; [|exact Hnodup].
    apply Forall_map. eapply Forall_impl; [exact Hnodes|].
    intros a. apply node_ok_keeps, dump_flush_keeps.
  - intros i Hi. unfold bucket, stats_prefix_clear. cbn [prefix_stats].
    rewrite clear_table, decide_True by (apply elem_of_seq; lia).
    split; constructor.
Qed.

Lemma reachable_table r : reachable r -> table_ok r.
Proof.
  induction 1 as [|c r _ IH]; [|now apply run_table].
  intros i Hi. split; constructor.
Qed.

Lemma elem_of_flat_map_buckets (t : nat -> list PREFIX_STATS) indices a :
  a ∈ flat_map t indices <-> exists i, i ∈ indices /\ a ∈ t i.
Proof.
  induction indices as [|j rest IH]; cbn [flat_map].
  - split; [intros Hin; now apply elem_of_nil in Hin|].
    intros (i & Hi & _). now apply elem_of_nil in Hi.
  - rewrite elem_of_app, IH. split.
    + intros [Hin|(i & Hi & Hin)].
      * exists j. split; [apply list_elem_of_here | exact Hin].
      * exists i. split; [now apply list_elem_of_further | exact Hin].
    + intros (i & Hi & Hin). apply elem_of_cons in Hi as [->|Hi]; eauto.
Qed.

Lemma elem_of_chained r a :
  a ∈ chained r
  <-> exists i, (i < Z.to_nat PREFIX_HASH_SIZE)%nat /\ a ∈ bucket r i.
Proof.
  unfold chained. rewrite elem_of_flat_map_buckets.
  split; intros (i & Hi & Hin); exists i; (split; [|exact Hin]).
  - apply elem_of_seq in Hi. lia.
  - apply elem_of_seq. lia.
Qed.

Lemma NoDup_prefix_inj pfs a b :
  NoDup (map prefix pfs) -> a ∈ pfs -> b ∈ pfs -> prefix a = prefix b -> a = b.
Proof.
  induction pfs as [|p next IH]; intros Hnd Ha Hb Heq;
    [now apply elem_of_nil in Ha|].
  cbn [map] in Hnd. apply NoDup_cons in Hnd as [Hp Hnd].
  apply elem_of_cons in Ha as [->|Ha]; apply elem_of_cons in Hb as [->|Hb].
  - reflexivity.
  - exfalso. apply Hp. rewrite Heq. now apply list_elem_of_fmap_2.
  - exfalso. apply Hp. rewrite <- Heq. now apply list_elem_of_fmap_2.
  - now apply IH.
Qed.

Lemma table_prefixes_distinct r indices :
  table_ok r ->
  NoDup indices ->
  (forall i, i ∈ indices -> (i < Z.to_nat PREFIX_HASH_SIZE)%nat) ->
  NoDup (map prefix (flat_map (bucket r) indices)).
Proof.
  intros Hok. induction 1 as [|i rest Hi Hnd IH]; intros Hlt;
    cbn [flat_map map]; [constructor|].
  rewrite map_app. apply NoDup_app.
  assert (Hii : (i < Z.to_nat PREFIX_HASH_SIZE)%nat)
    by apply Hlt, list_elem_of_here.
  destruct (Hok i Hii) as [Hnodes Hnodup].
  split; [exact Hnodup|]. split.
  - intros pre Hin1 Hin2.
    apply list_elem_of_fmap in Hin1 as (a & -> & Ha).
    apply list_elem_of_fmap in Hin2 as (b & Eb & Hb).
    apply elem_of_flat_map_buckets in Hb as (j & Hj & Hb).
    rewrite Forall_forall in Hnodes. destruct (Hnodes a Ha) as (Hha & _).
    destruct (Hok j (Hlt j (list_elem_of_further _ _ _ Hj))) as [Hnodesj _].
    rewrite Forall_forall in Hnodesj. destruct (Hnodesj b Hb) as (Hhb & _).
    apply Hi. replace i with j; [exact Hj|]. congruence.
  - apply IH. intros j Hj. apply Hlt. now apply list_elem_of_further.
Qed.

(** X6.  In every registry reached by public calls the table is a hash
    table of prefixes: each node hangs off the bucket its stored prefix
    hashes to, its prefix holds no delimiter and [prefix_len] bytes, and
    no two nodes of the whole table store the same prefix, so that a
    prefix has at most one accumulator. *)
Theorem table_is_hash_table (r : registry) :
  reachable r ->
  (forall i a,
     (i < Z.to_nat PREFIX_HASH_SIZE)%nat ->
     a ∈ bucket r i ->
     prefix_hashval (prefix a) = i
     /\ (prefix_delimiter ∉ prefix a)
     /\ prefix_len a = Z.of_nat (length (prefix a)))
  /\ NoDup (map prefix (chained r))
  /\ (forall a b,
        a ∈ chained r -> b ∈ chained r -> prefix a = prefix b -> a = b).
Proof.
  intros Hreach. pose proof (reachable_table r Hreach) as Hok.
  assert (Hnd : NoDup (map prefix (chained r))).
  { apply table_prefixes_distinct; [exact Hok | apply NoDup_seq|].
    intros i Hi. apply elem_of_seq in Hi. lia. }
  split; [|split; [exact Hnd|]].
  - intros i a Hi Ha. destruct (Hok i Hi) as [Hnodes _].
    rewrite Forall_forall in Hnodes. now apply Hnodes.
  - intros a b. now apply NoDup_prefix_inj.
Qed.

(** X7.  Lookup in a reached registry, for a key with a delimiter.  If
    some node of the table stores the prefix of the key,
    [stats_prefix_find] returns a pointer to that node, allocates
    nothing and leaves the registry alone.  If none does, then with a
    pool that can allocate it links in a zeroed node for the prefix,
    which the pointer returned designates and which did not exist
    before; with a pool that cannot, it returns no pointer and leaves the
    registry alone. *)
Theorem lookup_finds_the_prefix (key : list ascii) (r : registry) :
  reachable r ->
  prefix_delimiter ∈ key ->
  (forall a,
     a ∈ chained r ->
     prefix a = key_prefix key ->
     forall pool,
       exists p, stats_prefix_find key pool r = (Some p, r)
                 /\ deref r p = Some a)
  /\ ((forall a, a ∈ chained r -> prefix a <> key_prefix key) ->
      (exists p r1,
         stats_prefix_find key pool_ok r = (Some p, r1)
         /\ deref r p = None
         /\ deref r1 p = Some (new_node key))
      /\ forall pool,
           pool <> pool_ok -> stats_prefix_find key pool r = (None, r)).
Proof.
  intros Hreach Hin. pose proof (reachable_table r Hreach) as Hok.
  pose proof (key_hashval_lt key) as Hh.
  destruct (Hok _ Hh) as [Hnodes Hnodup]. rewrite Forall_forall in Hnodes.
  split.
  - intros a Ha Hpre pool.
    apply elem_of_chained in Ha as (i & Hi & Ha).
    destruct (Hok i Hi) as [Hnodesi _]. rewrite Forall_forall in Hnodesi.
    destruct (Hnodesi a Ha) as (Hha & _ & Hla).
    assert (i = key_hashval key) as ->
      by (rewrite key_hashval_prefix, <- Hpre; congruence).
    destruct (chain_find_elem key (delimiter_scan key) _ a Ha) as [k Hk].
    { rewrite Hla, Hpre. now rewrite key_prefix_length. }
    { rewrite Hpre. apply take_key_prefix. }
    destruct (stats_prefix_find_cases key pool r)
      as [[Hout _]|[(_ & k' & Hk' & E)|[(_ & Hn & _)|(_ & Hn & _)]]];
      [contradiction | | congruence..].
    exists (Chained (key_hashval key) k'). split; [exact E|].
    apply chain_find_Some in Hk' as (a' & Ha' & Hl' & Hp').
    cbn [deref]. rewrite Ha'. f_equal.
    pose proof (chain_get_elem _ _ _ Ha') as Hin'.
    destruct (Hnodes a' Hin') as (_ & _ & Hla').
    apply (NoDup_prefix_inj _ a' a Hnodup Hin' Ha).
    rewrite Hpre. fold (key_prefix key) in Hp'. rewrite <- Hp'.
    symmetry. apply take_ge. lia.
  - intros Hnone.
    assert (Hfind : chain_find key (delimiter_scan key)
                      (bucket r (key_hashval key)) = None).
    { destruct (chain_find key (delimiter_scan key) (bucket r (key_hashval key)))
        as [k|] eqn:Hk; [|reflexivity].
      exfalso. apply chain_find_Some in Hk as (a' & Ha' & Hl' & Hp').
      pose proof (chain_get_elem _ _ _ Ha') as Hin'.
      destruct (Hnodes a' Hin') as (_ & _ & Hla').
      apply (Hnone a'); [apply elem_of_chained; eauto|].
      fold (key_prefix key) in Hp'. rewrite <- Hp'.
      symmetry. apply take_ge. lia. }
    split.
    + destruct (stats_prefix_find_cases key pool_ok r)
        as [[Hout _]|[(_ & k' & Hk' & _)|[(_ & _ & _ & E)|(_ & _ & Hp & _)]]];
        [contradiction | congruence | | congruence].
      eexists. eexists. split; [exact E|]. split.
      * cbn [deref].
        destruct (chain_get (bucket r (key_hashval key))
                    (length (bucket r (key_hashval key)))) as [a|] eqn:Ha;
          [|reflexivity].
        apply chain_get_rank in Ha. lia.
      * unfold deref, bucket. cbn [prefix_stats].
        rewrite fn_lookup_insert. apply chain_get_behind.
    + intros pool Hpool.
      destruct (stats_prefix_find_cases key pool r)
        as [[Hout _]|[(_ & k' & Hk' & _)|[(_ & _ & Hp & _)|(_ & _ & _ & E)]]];
        [contradiction | congruence | contradiction | exact E].
Qed.

End HashTable.

(** ** Pointers and accumulators across calls *)

Section Persistence.
Context `{Externals}.

(** Every record function is a lookup followed by an update of the
    structure found that leaves its prefix alone. *)
Lemma run_record_shape c key pool :
  call_key c = Some (key, pool) ->
  exists f,
    keeps_prefix f
    /\ forall r,
         run c r
         = match stats_prefix_find key pool r with
           | (Some q, r1) => store q f r1
           | (None, r1) => r1
           end.
Proof.
  destruct c; cbn [call_key]; intros [= <- <-];
    (eexists; split; [|intros r; reflexivity]);
    intros a; cbv zeta; try destruct is_hit; repeat case_decide;
    split; reflexivity.
Qed.

Lemma run_all_app cs1 cs2 r : run_all (cs1 ++ cs2) r = run_all cs2 (run_all cs1 r).
Proof. unfold run_all. apply foldl_app. Qed.



Lemma find_resolves key pool r p r1 :
  stats_prefix_find key pool r = (Some p, r1) -> resolves key r1 p.
Proof.
  intros Hf.
  destruct (stats_prefix_find_cases key pool r)
    as [[Hout E]|[(Hin & k & Hk & E)|[(Hin & Hn & _ & E)|(_ & _ & _ & E)]]];
    rewrite E in Hf; inversion Hf; subst; clear Hf E.
  - left. split; [exact Hout | reflexivity].
  - right. split; [exact Hin|]. exists k. split; [reflexivity | exact Hk].
  - right. split; [exact Hin|]. eexists. split; [reflexivity|].
    unfold bucket. cbn [prefix_stats]. rewrite fn_lookup_insert.
    cbn [chain_find new_node prefix prefix_len set_prefix set_prefix_len].
    rewrite Z.eqb_refl. unfold memcmp_eq. fold (key_prefix key).
    rewrite take_key_prefix, bool_decide_eq_true_2 by reflexivity.
    reflexivity.
Qed.

Lemma resolves_find key pool r p :
  resolves key r p -> stats_prefix_find key pool r = (Some p, r).
Proof.
  intros [[Hout ->]|(Hin & k & -> & Hk)];
    destruct (stats_prefix_find_cases key pool r)
      as [[Hout' E]|[(Hin' & k' & Hk' & E)|[(Hin' & Hn & _)|(Hin' & Hn & _)]]];
    try contradiction; try congruence.
Qed.

Lemma resolves_same_prefix key1 key2 r p :
  same_prefix key1 key2 -> resolves key1 r p -> resolves key2 r p.
Proof.
  intros [[Ho1 Ho2]|(Hi1 & Hi2 & Heq)] [[Hout ->]|(Hin & k & -> & Hk)];
    try contradiction.
  - left. split; [exact Ho2 | reflexivity].
  - right. split; [exact Hi2|]. exists k.
    assert (Hn : delimiter_scan key1 = delimiter_scan key2)
      by (rewrite <- !key_prefix_length; congruence).
    rewrite !key_hashval_prefix, <- Heq, <- !key_hashval_prefix, <- Hn.
    split; [reflexivity|].
    rewrite <- Hk. apply chain_find_prefix.
    fold (key_prefix key1). rewrite Heq, Hn. reflexivity.
Qed.






Lemma run_keeps_node c r p a :
  c <> call_clear ->
  deref r p = Some a ->
  exists a',
    deref (run c r) p = Some a'
    /\ prefix a' = prefix a /\ prefix_len a' = prefix_len a.
Proof.
  intros Hc Ha.
  destruct (call_key c) as [[key pool]|] eqn:Hkey.
  - destruct (run_record_shape c key pool Hkey) as (f & Hf & ->).
    destruct (stats_prefix_find key pool r) as [[q|] r1] eqn:E;
      pose proof (stats_prefix_find_keeps key pool r _ r1 p a E Ha) as Ha1;
      [|eauto].
    assert (Hqp : {q = p} + {q <> p}) by repeat decide equality.
    destruct Hqp as [->|Hne].
    + exists (f a). split; [now apply deref_store_same | apply Hf].
    + exists a. rewrite deref_store_other by congruence. auto.
  - destruct c; try discriminate; [|contradiction].
    cbn [run]. destruct malloc_ok; [|eauto].
    destruct (dump_registry current_time r) as (Hin & Hout & Hw & _).
    destruct p as [|h k]; unfold deref in *.
    + injection Ha as <-. rewrite Hw. eexists. split; [reflexivity|].
      split; reflexivity.
    + destruct (decide (h < Z.to_nat PREFIX_HASH_SIZE)%nat) as [Hh|Hh].
      * rewrite (Hin h Hh), chain_get_map, Ha. eexists.
        split; [reflexivity|]. split; reflexivity.
      * rewrite (Hout h) by lia. eauto.
Qed.

(** X9.  No call but [stats_prefix_clear] removes, moves or renames an
    accumulator: a pointer that designates a structure keeps designating
    one with the same prefix and prefix length through every sequence
    of record and dump calls, for any keys and any allocator answers. *)
Theorem accumulators_stay_in_place
    (cs : list call) (r : registry) (p : pfs_ptr) (a : PREFIX_STATS) :
  no_clear cs ->
  deref r p = Some a ->
  exists a',
    deref (run_all cs r) p = Some a'
    /\ prefix a' = prefix a /\ prefix_len a' = prefix_len a.
Proof.
  intros Hcs. revert r a. induction Hcs as [|c cs Hc _ IH]; intros r a Ha;
    [eauto|].
  cbn [run_all foldl].
  destruct (run_keeps_node c r p a Hc Ha) as (a1 & Ha1 & Ep & El).
  destruct (IH _ _ Ha1) as (a' & Ha' & Ep' & El').
  exists a'. split; [exact Ha'|]. split; congruence.
Qed.

End Persistence.

(** ** What the counters count *)

Section Tally.
Context `{Externals}.

Lemma wrap_wrap bits x : wrap bits (wrap bits x) = wrap bits x.
Proof. unfold wrap. apply Zmod_mod. Qed.














End Tally.

(** ** Registries that cannot be told apart *)

Section SameRegistry.
Context `{Externals}.

Lemma same_registry_refl r : same_registry r r.
Proof. unfold same_registry. auto. Qed.

Lemma same_registry_trans r1 r2 r3 :
  same_registry r1 r2 -> same_registry r2 r3 -> same_registry r1 r3.
Proof.
  intros (Hb & Hn & Ht & Hw) (Hb' & Hn' & Ht' & Hw').
  split; [|split; [|split]]; try congruence.
  intros i Hi. rewrite Hb by assumption. now apply Hb'.
Qed.

Lemma same_registry_deref r r' p :
  same_registry r r' -> in_table p -> deref r p = deref r' p.
Proof.
  intros (Hb & _ & _ & Hw) Hp. destruct p as [|h k]; cbn [deref in_table] in *.
  - now rewrite Hw.
  - now rewrite Hb.
Qed.

Lemma stats_prefix_find_same key pool r r' :
  same_registry r r' ->
  fst (stats_prefix_find key pool r) = fst (stats_prefix_find key pool r')
  /\ same_registry (snd (stats_prefix_find key pool r))
       (snd (stats_prefix_find key pool r')).
Proof.
  intros Hsame. pose proof Hsame as (Hb & Hn & Ht & Hw).
  pose proof (Hb _ (key_hashval_lt key)) as Hbucket.
  destruct (stats_prefix_find_cases key pool r)
    as [[Hout E]|[(Hin & k & Hk & E)|[(Hin & Hnone & Hp & E)|(Hin & Hnone & Hp & E)]]];
    destruct (stats_prefix_find_cases key pool r')
      as [[Hout' E']|[(Hin' & k' & Hk' & E')|[(Hin' & Hnone' & Hp' & E')
                                             |(Hin' & Hnone' & Hp' & E')]]];
    try contradiction; try congruence; rewrite E, E'; cbn [fst snd];
    try (split; [congruence | exact Hsame]).
  split; [now rewrite Hbucket|].
  split; [|cbn [num_prefixes total_prefix_size wildcard]; rewrite Hn, Ht, Hw; auto].
  intros i Hi. rewrite Hbucket. unfold bucket. cbn [prefix_stats].
  destruct (decide (key_hashval key = i)) as [<-|Hne].
  - now rewrite !fn_lookup_insert.
  - rewrite !fn_lookup_insert_ne by assumption. exact (Hb i Hi).
Qed.

Lemma store_same q f r r' :
  same_registry r r' -> same_registry (store q f r) (store q f r').
Proof.
  intros (Hb & Hn & Ht & Hw). destruct q as [|h k].
  - split; [exact Hb|]. cbn [store num_prefixes total_prefix_size wildcard].
    rewrite Hw. auto.
  - split; [|cbn [store num_prefixes total_prefix_size wildcard]; auto].
    intros i Hi. unfold bucket. cbn [store prefix_stats].
    destruct (decide (h = i)) as [<-|Hne].
    + rewrite !fn_lookup_insert. f_equal. exact (Hb h Hi).
    + rewrite !fn_lookup_insert_ne by assumption. exact (Hb i Hi).
Qed.

Lemma record_same key pool f r r' :
  same_registry r r' ->
  same_registry
    (match stats_prefix_find key pool r with
     | (Some q, r1) => store q f r1
     | (None, r1) => r1
     end)
    (match stats_prefix_find key pool r' with
     | (Some q, r1) => store q f r1
     | (None, r1) => r1
     end).
Proof.
  intros Hsame.
  destruct (stats_prefix_find_same key pool r r' Hsame) as [Eo Hr].
  destruct (stats_prefix_find key pool r) as [o r1].
  destruct (stats_prefix_find key pool r') as [o' r1'].
  cbn [fst snd] in *. subst o'. destruct o as [q|]; [|exact Hr].
  now apply store_same.
Qed.

Lemma dump_size_same r r' :
  num_prefixes r = num_prefixes r' ->
  total_prefix_size r = total_prefix_size r' ->
  dump_size r = dump_size r'.
Proof. unfold dump_size. now intros -> ->. Qed.

(** The report depends on the two counters, on the flushed chains of the
    array and on the flushed wildcard. *)
Lemma dump_report_eq now r r' :
  dump_size r = dump_size r' ->
  (forall i, (i < Z.to_nat PREFIX_HASH_SIZE)%nat ->
     map (dump_flush now) (bucket r i) = map (dump_flush now) (bucket r' i)) ->
  dump_flush now (wildcard r) = dump_flush now (wildcard r') ->
  fst (stats_prefix_dump now true r) = fst (stats_prefix_dump now true r').
Proof.
  intros Hs Hb Hw. rewrite !dump_result_eq. cbv zeta.
  assert (HT : snd (dump_table now (dump_size r) (prefix_stats r) ([], 0))
               = snd (dump_table now (dump_size r') (prefix_stats r') ([], 0))).
  { rewrite (proj2 (proj2 (dump_table_spec now (dump_size r) (prefix_stats r) _))).
    rewrite (proj2 (proj2 (dump_table_spec now (dump_size r') (prefix_stats r') _))).
    rewrite Hs. f_equal. apply flat_map_agree.
    intros i Hi. apply elem_of_seq in Hi. apply Hb. lia. }
  rewrite HT, Hs, Hw. reflexivity.
Qed.

Lemma dump_same now malloc_ok r r' :
  same_registry r r' ->
  fst (stats_prefix_dump now malloc_ok r) = fst (stats_prefix_dump now malloc_ok r')
  /\ same_registry (snd (stats_prefix_dump now malloc_ok r))
       (snd (stats_prefix_dump now malloc_ok r')).
Proof.
  intros Hsame. pose proof Hsame as (Hb & Hn & Ht & Hw).
  destruct malloc_ok; [|split; [reflexivity | exact Hsame]].
  split.
  - apply dump_report_eq; [now apply dump_size_same | | now rewrite Hw].
    intros i Hi. now rewrite Hb.
  - destruct (dump_registry now r) as (Hin & _ & Hw1 & Hn1 & Ht1 & _).
    destruct (dump_registry now r') as (Hin' & _ & Hw1' & Hn1' & Ht1' & _).
    split; [|split; [|split]]; try congruence.
    intros i Hi. rewrite Hin, Hin' by assumption. now rewrite Hb.
Qed.

Lemma clear_same r r' :
  same_registry (stats_prefix_clear r) (stats_prefix_clear r').
Proof.
  split; [|cbn [stats_prefix_clear num_prefixes total_prefix_size wildcard]; auto].
  intros i Hi. unfold bucket, stats_prefix_clear. cbn [prefix_stats].
  rewrite !clear_table, !decide_True by (apply elem_of_seq; lia). reflexivity.
Qed.

Lemma run_same c r r' :
  same_registry r r' -> same_registry (run c r) (run c r').
Proof.
  intros Hsame.
  destruct (call_key c) as [[key pool]|] eqn:Hkey.
  - destruct (run_record_shape c key pool Hkey) as (f & _ & E).
    rewrite !E. now apply record_same.
  - destruct c; try discriminate; cbn [run].
    + now apply dump_same.
    + apply clear_same.
Qed.

Lemma run_all_same cs r r' :
  same_registry r r' -> same_registry (run_all cs r) (run_all cs r').
Proof.
  revert r r'. induction cs as [|c cs IH]; intros r r' Hsame; [exact Hsame|].
  cbn [run_all foldl]. apply IH. now apply run_same.
Qed.

Lemma dump_flush_idempotent now a :
  dump_flush now (dump_flush now a) = dump_flush now a.
Proof.
  unfold dump_flush.
  cbn [set_total_byte_seconds set_last_update prefix prefix_len num_items
       last_update num_gets num_hits num_sets num_deletes num_evicts
       num_overwrites num_expires num_bytes bytes_txed total_byte_seconds].
  rewrite Z.sub_diag. change (rel_time 0) with 0.
  rewrite Z.mul_0_r. change (u64 0) with 0. rewrite Z.add_0_r.
  unfold u64. rewrite wrap_wrap. reflexivity.
Qed.

(** X11.  [stats_prefix_clear] is a fresh start.  Whatever the registry
    held, after the clear it has empty chains, zero counters and a zeroed
    wildcard, as after [stats_prefix_init]; every chained pointer of
    before dangles; and any sequence of calls run from there gives the
    registry and the reports it gives from the initial registry. *)
Theorem clear_is_a_fresh_start (r : registry) (cs : list call) :
  same_registry (stats_prefix_clear r) stats_prefix_init
  /\ (forall h k,
        (h < Z.to_nat PREFIX_HASH_SIZE)%nat ->
        deref (stats_prefix_clear r) (Chained h k) = None)
  /\ same_registry (run_all cs (stats_prefix_clear r))
       (run_all cs stats_prefix_init)
  /\ (forall now malloc_ok,
        fst (stats_prefix_dump now malloc_ok (run_all cs (stats_prefix_clear r)))
        = fst (stats_prefix_dump now malloc_ok (run_all cs stats_prefix_init)))
  /\ (forall p,
        in_table p ->
        deref (run_all cs (stats_prefix_clear r)) p
        = deref (run_all cs stats_prefix_init) p).
Proof.
  assert (Hclear : same_registry (stats_prefix_clear r) stats_prefix_init).
  { split; [|cbn [stats_prefix_clear stats_prefix_init num_prefixes
                  total_prefix_size wildcard]; auto].
    intros i Hi. unfold bucket, stats_prefix_clear. cbn [prefix_stats].
    rewrite clear_table, decide_True by (apply elem_of_seq; lia). reflexivity. }
  pose proof (run_all_same cs _ _ Hclear) as Hrun.
  split; [exact Hclear|]. split; [|split; [exact Hrun|split]].
  - intros h k Hh. cbn [deref].
    rewrite (proj1 Hclear h Hh). reflexivity.
  - intros now malloc_ok. now apply dump_same.
  - intros p Hp. now apply same_registry_deref.
Qed.

(** X12.  A dump repeated while the clock stands still changes nothing:
    the second dump returns the report of the first and leaves every
    accumulator, the counters and the wildcard as the first left them
    (the flush is unconditional in the dump, but over no elapsed time it
    adds nothing). *)
Theorem dump_again_same_clock (now : Z) (r : registry) :
  let r1 := snd (stats_prefix_dump now true r) in
  fst (stats_prefix_dump now true r1) = fst (stats_prefix_dump now true r)
  /\ same_registry (snd (stats_prefix_dump now true r1)) r1.
Proof.
  intros r1. subst r1.
  destruct (dump_registry now r) as (Hin & _ & Hw & Hn & Ht & _).
  destruct (dump_registry now (snd (stats_prefix_dump now true r)))
    as (Hin' & _ & Hw' & Hn' & Ht' & _).
  remember (snd (stats_prefix_dump now true r)) as r1 eqn:Er1 in *. clear Er1.
  remember (snd (stats_prefix_dump now true r1)) as r2 eqn:Er2 in *. clear Er2.
  assert (Hmap : forall i, (i < Z.to_nat PREFIX_HASH_SIZE)%nat ->
                   map (dump_flush now) (bucket r1 i) = bucket r1 i).
  { intros i Hi. rewrite (Hin i Hi), map_map. apply map_ext.
    intros a. apply dump_flush_idempotent. }
  split.
  - apply dump_report_eq; [now apply dump_size_same | |].
    + intros i Hi. rewrite (Hmap i Hi). now apply Hin.
    + rewrite Hw. apply dump_flush_idempotent.
  - split; [|split; [exact Hn'|split; [exact Ht'|]]].
    + intros i Hi. rewrite (Hin' i Hi). now apply Hmap.
    + rewrite Hw', Hw. apply dump_flush_idempotent.
Qed.

End SameRegistry.

(** ** The order of the walk, and the empty prefix *)

Section WalkOrder.
Context `{Externals}.

Lemma flat_map_split (t : nat -> list PREFIX_STATS) h n :
  (h < n)%nat ->
  flat_map t (seq 0 n)
  = flat_map t (seq 0 h) ++ t h ++ flat_map t (seq (S h) (n - S h)).
Proof.
  intros Hh. replace n with (h + S (n - S h))%nat at 1 by lia.
  rewrite seq_app, flat_map_app. reflexivity.
Qed.

Lemma flat_map_insert_at (t : nat -> list PREFIX_STATS) h c n :
  (h < n)%nat ->
  flat_map (<[h := c]> t) (seq 0 n)
  = flat_map t (seq 0 h) ++ c ++ flat_map t (seq (S h) (n - S h)).
Proof.
  intros Hh. rewrite (flat_map_split _ h n Hh), fn_lookup_insert.
  f_equal; [|f_equal]; apply flat_map_agree;
    intros i Hi; apply elem_of_seq in Hi;
    (rewrite fn_lookup_insert_ne; [reflexivity | lia]).
Qed.

Lemma store_prefixes q f r :
  keeps_prefix f ->
  map prefix (chained (store q f r)) = map prefix (chained r).
Proof.
  intros Hf. destruct q as [|h k]; [reflexivity|].
  unfold chained. cbn [store prefix_stats].
  destruct (decide (h < Z.to_nat PREFIX_HASH_SIZE)%nat) as [Hh|Hh].
  - rewrite (flat_map_insert_at _ h _ _ Hh), (flat_map_split _ h _ Hh).
    rewrite !map_app. unfold bucket.
    now rewrite chain_set_prefixes.
  - rewrite flat_map_insert_outside by lia. reflexivity.
Qed.

(** X13.  The order in which the dump walks the accumulators is stable.
    A record or dump call either leaves the sequence of prefixes in walk
    order as it was, or it is a record call for a key with a delimiter
    that had no accumulator, run with a pool that can allocate, and it
    inserts the prefix of the key ahead of the nodes of its bucket, after
    all nodes of the buckets with a lower index: buckets are walked by
    index, and each chain newest first. *)
Theorem walk_order_is_stable (c : call) (r : registry) :
  c <> call_clear ->
  map prefix (chained (run c r)) = map prefix (chained r)
  \/ exists key,
       call_key c = Some (key, pool_ok)
       /\ prefix_delimiter ∈ key
       /\ let h := key_hashval key in
          let lower := flat_map (bucket r) (seq 0 h) in
          let rest :=
            bucket r h
            ++ flat_map (bucket r) (seq (S h) (Z.to_nat PREFIX_HASH_SIZE - S h)) in
          chained r = lower ++ rest
          /\ map prefix (chained (run c r))
             = map prefix lower ++ key_prefix key :: map prefix rest.
Proof.
  intros Hc.
  destruct (call_key c) as [[key pool]|] eqn:Hkey.
  - destruct (run_record_shape c key pool Hkey) as (f & Hf & ->).
    destruct (stats_prefix_find_cases key pool r)
      as [[_ E]|[(_ & k & _ & E)|[(Hin & _ & -> & E)|(_ & _ & _ & E)]]];
      rewrite E; try (left; now try apply store_prefixes).
    right. exists key. split; [reflexivity|]. split; [exact Hin|].
    cbv zeta. rewrite store_prefixes by exact Hf.
    unfold chained. cbn [prefix_stats].
    rewrite (flat_map_insert_at _ _ _ _ (key_hashval_lt key)).
    rewrite (flat_map_split (prefix_stats r) _ _ (key_hashval_lt key)).
    split; [reflexivity|].
    rewrite !map_app. reflexivity.
  - left. destruct c; try discriminate; [|contradiction].
    cbn [run]. destruct malloc_ok; [|reflexivity].
    destruct (dump_registry current_time r) as (_ & _ & _ & _ & _ & ->).
    rewrite map_map. reflexivity.
Qed.

(** X14.  A key that begins with the delimiter has the empty prefix, and
    the empty prefix is a prefix like any other: in a reached registry
    the lookup never answers with the wildcard for such a key, and the
    structure it returns is a node of the table with no prefix bytes and
    [prefix_len] zero, the same node for all such keys. *)
Theorem leading_delimiter_is_the_empty_prefix
    (rest : list ascii) (pool : pool_outcome) (r r1 : registry)
    (o : option pfs_ptr) :
  reachable r ->
  stats_prefix_find (prefix_delimiter :: rest) pool r = (o, r1) ->
  o <> Some Wildcard
  /\ (forall p,
        o = Some p ->
        (exists k, p = Chained (prefix_hashval []) k)
        /\ (exists a,
              deref r1 p = Some a /\ prefix a = [] /\ prefix_len a = 0)
        /\ forall rest' pool',
             stats_prefix_find (prefix_delimiter :: rest') pool' r1
             = (Some p, r1)).
Proof.
  intros Hreach Hf.
  set (key := prefix_delimiter :: rest) in *.
  assert (Hin : prefix_delimiter ∈ key) by apply list_elem_of_here.
  assert (Hscan : delimiter_scan key = O).
  { unfold key. cbn [delimiter_scan]. now rewrite decide_True. }
  assert (Hpre : key_prefix key = []) by (unfold key_prefix; now rewrite Hscan).
  pose proof (stats_prefix_find_table key pool r o r1
                (reachable_table r Hreach) Hf) as Hok.
  assert (Hnw : o <> Some Wildcard).
  { intros ->.
    destruct (stats_prefix_find_cases key pool r)
      as [[Hout _]|[(_ & k & _ & E)|[(_ & _ & _ & E)|(_ & _ & _ & E)]]];
      [contradiction | congruence..]. }
  split; [exact Hnw|]. intros p ->.
  destruct p as [|h k]; [contradiction|].
  pose proof (stats_prefix_find_node key pool r h k r1 Hf)
    as (Eh & a & Ha & Hl & _).
  rewrite key_hashval_prefix, Hpre in Eh. subst h.
  split; [now exists k|]. split.
  - exists a. split; [exact Ha|].
    destruct (Hok _ (prefix_hashval_lt [])) as [Hnodes _].
    rewrite Forall_forall in Hnodes.
    destruct (Hnodes a (chain_get_elem _ _ _ Ha)) as (_ & _ & Hlen).
    rewrite Hscan in Hl. split; [|exact Hl].
    destruct (prefix a); [reflexivity | cbn [length] in Hlen; lia].
  - intros rest' pool'. apply resolves_find.
    apply (resolves_same_prefix key).
    + right. split; [exact Hin|]. split; [apply list_elem_of_here|].
      unfold key_prefix, key. cbn [delimiter_scan].
      now rewrite !decide_True.
    + now apply (find_resolves key pool r).
Qed.

End WalkOrder.

(** ** The further properties on the keys of the unit tests *)

Module Scenarios.

#[local] Existing Instance unit_test_externals.

Lemma reachable_r_abc : reachable r_abc.
Proof.
  exact (reachable_run (call_record_set key_abc_123 pool_ok) _ reachable_init).
Defined.

Lemma find_in_r_abc :
  stats_prefix_find key_abc_123 pool_ok r_abc = (Some p_abc, r_abc).
Proof. vm_compute. reflexivity. Defined.


Lemma deref_r_abc : deref r_abc p_abc = Some a_abc.
Proof. vm_compute. reflexivity. Defined.

Lemma no_clear_calls_mixed : no_clear calls_mixed.
Proof. repeat constructor; discriminate. Defined.

Lemma key_splits_at_first_delimiter_witness :
  prefix_delimiter ∈ key_abc_123
  /\ (delimiter_scan key_abc_123 < length key_abc_123)%nat
  /\ key_abc_123
     = key_prefix key_abc_123
       ++ prefix_delimiter :: drop (S (delimiter_scan key_abc_123)) key_abc_123.
Proof.
  split; [exact UnitTest.delimiter_in_abc_123|].
  exact (proj1 (proj2 (key_splits_at_first_delimiter key_abc_123))
           UnitTest.delimiter_in_abc_123).
Defined.

Lemma record_changes_one_accumulator_witness :
  call_key (call_record_delete key_xyz123 pool_ok) = Some (key_xyz123, pool_ok)
  /\ deref r_abc p_abc = Some a_abc
  /\ deref (run (call_record_delete key_xyz123 pool_ok) r_abc) p_abc
     = Some a_abc.
Proof.
  split; [reflexivity|]. split; [exact deref_r_abc|].
  apply (record_changes_one_accumulator _ key_xyz123 pool_ok);
    [reflexivity | exact deref_r_abc|].
  intros q r1 Hq.
  assert (E : fst (stats_prefix_find key_xyz123 pool_ok r_abc) = Some Wildcard)
    by (vm_compute; reflexivity).
  rewrite Hq in E. injection E as ->. discriminate.
Defined.


Lemma byte_total_change_flags_witness :
  stats_prefix_find key_abc_123 pool_ok r_abc = (Some p_abc, r_abc)
  /\ exists a',
       deref (stats_prefix_record_byte_total_change key_abc_123 100 2 10
                pool_ok r_abc) p_abc = Some a'
       /\ num_items a' = 0 /\ num_overwrites a' = 1.
Proof.
  split; [exact find_in_r_abc|].
  destruct (byte_total_change_flags key_abc_123 100 2 10 pool_ok r_abc r_abc
              p_abc find_in_r_abc)
    as (a & a' & Ha & Ha' & Hi & Ho & _).
  assert (Ea : a = a_abc).
  { assert (E : Some a = Some a_abc) by (rewrite <- Ha; exact deref_r_abc).
    now inversion E. }
  exists a'. split; [exact Ha'|]. rewrite Hi, Ho, Ea. split; reflexivity.
Defined.

Lemma record_removal_reason_witness :
  stats_prefix_find key_abc_123 pool_ok r_abc = (Some p_abc, r_abc)
  /\ exists a',
       deref (stats_prefix_record_removal key_abc_123 1 0 3 9 pool_ok r_abc)
         p_abc = Some a'
       /\ num_evicts a' = 1 /\ num_expires a' = 0.
Proof.
  split; [exact find_in_r_abc|].
  destruct (record_removal_reason key_abc_123 1 0 3 9 pool_ok r_abc r_abc
              p_abc find_in_r_abc)
    as (a & a' & Ha & Ha' & He & Hx & _).
  assert (Ea : a = a_abc).
  { assert (E : Some a = Some a_abc) by (rewrite <- Ha; exact deref_r_abc).
    now inversion E. }
  exists a'. split; [exact Ha'|]. rewrite He, Hx, Ea. split; reflexivity.
Defined.

Lemma table_is_hash_table_witness :
  reachable r_abc
  /\ NoDup (map prefix (chained r_abc))
  /\ prefix_hashval (prefix a_abc) = key_hashval key_abc_123.
Proof.
  split; [exact reachable_r_abc|].
  destruct (table_is_hash_table r_abc reachable_r_abc) as (Hnodes & Hnodup & _).
  split; [exact Hnodup|].
  apply (Hnodes (key_hashval key_abc_123) a_abc); [apply key_hashval_lt|].
  apply (chain_get_elem _ 0). exact deref_r_abc.
Defined.

Lemma lookup_finds_the_prefix_witness :
  reachable r_abc
  /\ prefix_delimiter ∈ key_abc_d
  /\ exists p,
       stats_prefix_find key_abc_d pool_calloc_null r_abc = (Some p, r_abc)
       /\ deref r_abc p = Some a_abc.
Proof.
  split; [exact reachable_r_abc|]. split; [exact UnitTest.delimiter_in_abc_d|].
  apply (proj1 (lookup_finds_the_prefix key_abc_d r_abc reachable_r_abc
                  UnitTest.delimiter_in_abc_d) a_abc);
    [|reflexivity].
  apply elem_of_chained. exists (key_hashval key_abc_123).
  split; [apply key_hashval_lt|].
  apply (chain_get_elem _ 0). exact deref_r_abc.
Defined.


Lemma accumulators_stay_in_place_witness :
  no_clear calls_mixed
  /\ deref r_abc p_abc = Some a_abc
  /\ exists a',
       deref (run_all calls_mixed r_abc) p_abc = Some a'
       /\ prefix a' = list_ascii_of_string "abc" /\ prefix_len a' = 3.
Proof.
  split; [exact no_clear_calls_mixed|]. split; [exact deref_r_abc|].
  exact (accumulators_stay_in_place calls_mixed r_abc p_abc a_abc
           no_clear_calls_mixed deref_r_abc).
Defined.


Lemma clear_is_a_fresh_start_witness :
  in_table p_abc
  /\ deref (stats_prefix_clear r_bytes) p_abc = None
  /\ deref (run_all calls_mixed (stats_prefix_clear r_bytes)) p_abc
     = deref (run_all calls_mixed stats_prefix_init) p_abc.
Proof.
  assert (Hp : in_table p_abc) by apply key_hashval_lt.
  destruct (clear_is_a_fresh_start r_bytes calls_mixed)
    as (_ & Hdangle & _ & _ & Hderef).
  split; [exact Hp|]. split; [exact (Hdangle _ 0%nat Hp) | exact (Hderef p_abc Hp)].
Defined.

Lemma walk_order_is_stable_witness :
  let c := call_record_set key_abc_123 pool_ok in
  let r := stats_prefix_init in
  c <> call_clear
  /\ (map prefix (chained (run c r)) = map prefix (chained r)
      \/ exists key,
           call_key c = Some (key, pool_ok)
           /\ prefix_delimiter ∈ key
           /\ let h := key_hashval key in
              let lower := flat_map (bucket r) (seq 0 h) in
              let rest :=
                bucket r h
                ++ flat_map (bucket r)
                     (seq (S h) (Z.to_nat PREFIX_HASH_SIZE - S h)) in
              chained r = lower ++ rest
              /\ map prefix (chained (run c r))
                 = map prefix lower ++ key_prefix key :: map prefix rest).
Proof.
  intros c r.
  assert (Hc : c <> call_clear) by discriminate.
  split; [exact Hc|].
  exact (walk_order_is_stable c r Hc).
Defined.

Lemma leading_delimiter_is_the_empty_prefix_witness :
  reachable r_abc
  /\ fst (stats_prefix_find key_colon_x pool_ok r_abc) <> Some Wildcard.
Proof.
  split; [exact reachable_r_abc|].
  apply (leading_delimiter_is_the_empty_prefix (list_ascii_of_string "x")
           pool_ok r_abc (snd (stats_prefix_find key_colon_x pool_ok r_abc))
           _ reachable_r_abc).
  apply injective_projections; reflexivity.
Defined.

End Scenarios.
